(** * Uniform badge visualiser: layout engine and text-fit estimator

    A shallow embedding of [src/components/UniformBadgeVisualizer.tsx]:
    the function [computeLayout] (grouping of the selected badges by slot
    and the per-slot arrangement rules) and the function [fitFontSize].

    Conventions of the embedding.
    - A JavaScript [number] is the rational it denotes ([Q]).  In the
      layout engine the arrangement rules only add, subtract, halve and
      scale by small integers, which is exact in doubles on the integer
      coordinates of the 1000 x 1200 canvas, and the arithmetic is that
      of the rationals.  In [fitFontSize], where products and quotients
      by arbitrary numbers are floored, every operation is followed by
      the rounding of double-precision arithmetic ([round53]).  The one
      place where the source can divide by zero ([fitFontSize], empty
      label) is modelled with an explicit [+Infinity] value.
    - A JavaScript string is a [string] holding its UTF-8 text;
      [label.length] is [js_length], the number of UTF-16 code units.
    - The two JSON tables [slots.json] and [badges.json] are not part of
      the sources at hand: every definition takes them as parameters
      (association lists from identifier to entry, as a JSON object is
      written), and [Samples] gives small tables for running the code.
    - [bySlot] is a JavaScript object used as an ordered map.  Its keys are
      kept in creation order and [Object_entries] applies the own-property
      order of the language: keys that are array indices first, in
      ascending numeric order, then all other keys in creation order.
    - [get] looks a key up among the members of an object itself.  The
      source reads [obj[key]], which also finds the members every object
      inherits ([constructor], [toString] and the like); [read] and
      [computeLayout_js] model that, with the [TypeError] it leads to,
      and [computeLayout] is what the code returns whenever it returns a
      layout (lemma [computeLayout_js_returns]).
    - The entries of [bySlot] are objects that the second loop updates in
      place.  Each is created by one iteration of the first loop and held
      by one group only, so the update is modelled by building the moved
      entry. *)

From Stdlib Require Import List String Ascii Bool Arith NArith ZArith Lia.
From Stdlib Require Import QArith Qpower Qabs Qround Qminmax Lqa.
From Stdlib Require Import Permutation Sorted.
Import ListNotations.

Local Open Scope string_scope.
Local Open Scope list_scope.

(** ** Reference tables *)

Module Slot.
Record t : Type := mk { x : Q; y : Q; w : Q; h : Q; z : Q }.
End Slot.

Module Badge.
Record t : Type := mk {
  label : string;
  category : string;
  slot : string;
  color : string;
  asset : option string
}.
End Badge.

Module Placed.
Record t : Type := mk {
  id : string;
  label : string;
  slot : string;
  x : Q;
  y : Q;
  w : Q;
  h : Q;
  z : Q;
  color : string;
  asset : option string
}.

(** The four assignments [it.x = ..; it.y = ..; it.w = ..; it.h = ..]. *)
Definition set_geometry (it : t) (x' y' w' h' : Q) : t :=
  mk (id it) (label it) (slot it) x' y' w' h' (z it) (color it) (asset it).
End Placed.

(** A JSON object as the sequence of its members. *)
Definition table (V : Type) : Type := list (string * V).

(** The member of [tbl] itself that is stored under [key], if any. *)
Fixpoint get {V : Type} (tbl : table V) (key : string) : option V :=
  match tbl with
  | [] => None
  | (k, v) :: rest => if String.eqb key k then Some v else get rest key
  end.

(** ** Own-property order of a JavaScript object *)

Definition digit_of (c : ascii) : option N :=
  let n := N_of_ascii c in
  if ((48 <=? n) && (n <=? 57))%N then Some (n - 48)%N else None.

Fixpoint parse_digits (s : string) (acc : N) : option N :=
  match s with
  | EmptyString => Some acc
  | String c s' =>
      match digit_of c with
      | Some d => parse_digits s' (10 * acc + d)%N
      | None => None
      end
  end.

(** A property key is an array index when it is the canonical decimal
    form of an integer between 0 and 2^32 - 2. *)
Definition array_index (s : string) : option N :=
  match s with
  | EmptyString => None
  | String "0"%char EmptyString => Some 0%N
  | String "0"%char _ => None
  | _ =>
      match parse_digits s 0 with
      | Some n => if (n <? 4294967295)%N then Some n else None
      | None => None
      end
  end.

Definition is_array_index (s : string) : bool :=
  match array_index s with Some _ => true | None => false end.

Section Entries.
Context {V : Type}.

Fixpoint insert_index (n : N) (e : string * V) (l : list (N * (string * V)))
  : list (N * (string * V)) :=
  match l with
  | [] => [(n, e)]
  | (m, e') :: l' =>
      if (n <? m)%N then (n, e) :: l else (m, e') :: insert_index n e l'
  end.

Fixpoint index_members (o : list (string * V)) : list (N * (string * V)) :=
  match o with
  | [] => []
  | e :: o' =>
      match array_index (fst e) with
      | Some n => insert_index n e (index_members o')
      | None => index_members o'
      end
  end.

(** [Object.entries(o)] for an object whose members were created in the
    order of the list [o]. *)
Definition Object_entries (o : list (string * V)) : list (string * V) :=
  map snd (index_members o)
  ++ filter (fun e => negb (is_array_index (fst e))) o.
End Entries.

(** ** Array helpers *)

(** [arr.slice(a, b)] for [0 <= a <= b]. *)
Definition slice {A : Type} (a b : nat) (arr : list A) : list A :=
  firstn (b - a) (skipn a arr).

(** [arr.forEach((it, i) => out.push(f it i))], counting from [i]. *)
Fixpoint mapi_from {A B : Type} (f : A -> nat -> B) (i : nat) (arr : list A)
  : list B :=
  match arr with
  | [] => []
  | it :: rest => f it i :: mapi_from f (S i) rest
  end.

Definition mapi {A B : Type} (f : A -> nat -> B) (arr : list A) : list B :=
  mapi_from f 0 arr.

(** The loop index [i] as a number. *)
Definition of_nat (i : nat) : Q := inject_Z (Z.of_nat i).

(** ** The layout engine *)

Definition bySlot_t : Type := list (string * list Placed.t).

(** [bySlot[slotKey] ??= []; bySlot[slotKey].push(entry)] *)
Fixpoint push_entry (slotKey : string) (entry : Placed.t) (bySlot : bySlot_t)
  : bySlot_t :=
  match bySlot with
  | [] => [(slotKey, [entry])]
  | (k, items) :: rest =>
      if String.eqb slotKey k then (k, items ++ [entry]) :: rest
      else (k, items) :: push_entry slotKey entry rest
  end.

Record Layout : Type := mkLayout {
  layout : list Placed.t;
  warnings : list string
}.

Section ComputeLayout.
Variable slots : table Slot.t.
Variable badges : table Badge.t.

(** Body of the grouping loop up to the construction of [entry]; [None]
    stands for either [continue].  The lookups are among the members of
    the tables themselves; [group_step_js] below has the inherited ones
    as well. *)
Definition make_entry (id : string) : option Placed.t :=
  match get badges id with
  | None => None
  | Some spec =>
      let slotKey := Badge.slot spec in
      match get slots slotKey with
      | None => None
      | Some box =>
          Some (Placed.mk id (Badge.label spec) slotKey
                  (Slot.x box) (Slot.y box) (Slot.w box) (Slot.h box)
                  (Slot.z box) (Badge.color spec) (Badge.asset spec))
      end
  end.

Definition group_step (bySlot : bySlot_t) (id : string) : bySlot_t :=
  match make_entry id with
  | None => bySlot
  | Some entry => push_entry (Placed.slot entry) entry bySlot
  end.

Definition groupBySlot (selectedIds : list string) : bySlot_t :=
  fold_left group_step selectedIds [].

Definition pyramid_warning (slotKey : string) : string :=
  slotKey ++ " allows max 3; extra selections ignored.".

Definition single_warning (slotKey : string) : string :=
  slotKey ++ ": multiple selections; only first shown.".

(** Pyramid branch ([safBadges], [foreignBadges]). *)
Definition arrange_pyramid (slotKey : string) (box : Slot.t)
    (items : list Placed.t) : list Placed.t * list string :=
  let n := Nat.min 3 (List.length items) in
  let warns :=
    if (3 <? List.length items)%nat then [pyramid_warning slotKey] else [] in
  let gap := 8%Q in
  let tileH := Qmin (Slot.h box) 60 in
  let tileW := Qmin (Slot.w box) 90 in
  let placed :=
    if (n =? 1)%nat then
      match nth_error items 0 with
      | Some it =>
          [Placed.set_geometry it
             (Slot.x box + (Slot.w box - tileW) / 2) (Slot.y box)
             tileW tileH]
      | None => []
      end
    else if (n =? 2)%nat then
      let totalW := tileW * 2 + gap in
      let startX := Slot.x box + (Slot.w box - totalW) / 2 in
      mapi (fun it i =>
              Placed.set_geometry it
                (startX + of_nat i * (tileW + gap)) (Slot.y box)
                tileW tileH)
           (slice 0 2 items)
    else if (3 <=? n)%nat then
      let top :=
        match nth_error items 0 with
        | Some it =>
            [Placed.set_geometry it
               (Slot.x box + (Slot.w box - tileW) / 2) (Slot.y box)
               tileW tileH]
        | None => []
        end in
      let totalW := tileW * 2 + gap in
      let startX := Slot.x box + (Slot.w box - totalW) / 2 in
      top ++
      mapi (fun it i =>
              Placed.set_geometry it
                (startX + of_nat i * (tileW + gap))
                (Slot.y box + tileH + gap)
                tileW tileH)
           (slice 1 3 items)
    else [] in
  (placed, warns).

(** Medal-row branch ([medalsBelowRightPocket]). *)
Definition arrange_medals (box : Slot.t) (items : list Placed.t)
  : list Placed.t * list string :=
  let gap := 10%Q in
  let tileH := Qmin (Slot.h box) 400 in
  let tileW := 50%Q in
  let n := of_nat (List.length items) in
  let totalW := n * tileW + (n - 1) * gap in
  let startX := Slot.x box + (Slot.w box - totalW) / 2 in
  (mapi (fun it i =>
           Placed.set_geometry it
             (startX + of_nat i * (tileW + gap)) (Slot.y box) tileW tileH)
        items,
   []).

(** Vertical-stack branch ([rightSleeveProficiency]). *)
Definition arrange_stack (box : Slot.t) (items : list Placed.t)
  : list Placed.t * list string :=
  let gap := 8%Q in
  let tileH := 36%Q in
  (mapi (fun it i =>
           Placed.set_geometry it
             (Slot.x box) (Slot.y box + of_nat i * (tileH + gap))
             (Slot.w box) tileH)
        items,
   []).

(** Last branch: [placed.push(items[0])] and the warning. *)
Definition arrange_single (slotKey : string) (items : list Placed.t)
  : list Placed.t * list string :=
  (match nth_error items 0 with Some it => [it] | None => [] end,
   if (1 <? List.length items)%nat then [single_warning slotKey] else []).

(** Body of the second loop: what one [slotKey, items] pair pushes on
    [placed] and on [warnings].  [box] is read from the slot table again;
    the keys of [bySlot] were all found there by the first loop and every
    group holds at least one item, so the [None] cases here and in the
    branches above do not arise (lemmas [groupBySlot_box] and
    [groupBySlot_nonempty]). *)
Definition arrange (slotKey : string) (items : list Placed.t)
  : list Placed.t * list string :=
  if String.eqb slotKey "safBadges" || String.eqb slotKey "foreignBadges"
  then
    match get slots slotKey with
    | Some box => arrange_pyramid slotKey box items
    | None => ([], [])
    end
  else if String.eqb slotKey "medalsBelowRightPocket" then
    match get slots slotKey with
    | Some box => arrange_medals box items
    | None => ([], [])
    end
  else if String.eqb slotKey "rightSleeveProficiency" then
    match get slots slotKey with
    | Some box => arrange_stack box items
    | None => ([], [])
    end
  else arrange_single slotKey items.

Definition arrange_step (acc : Layout) (e : string * list Placed.t)
  : Layout :=
  let (ps, ws) := arrange (fst e) (snd e) in
  mkLayout (layout acc ++ ps) (warnings acc ++ ws).

Definition computeLayout (selectedIds : list string) : Layout :=
  fold_left arrange_step (Object_entries (groupBySlot selectedIds))
            (mkLayout [] []).
End ComputeLayout.

(** ** The engine with the member lookup of the language

    [obj[key]] finds the members of [obj] itself and, failing that, the
    members every object inherits from [Object.prototype].  The inherited
    ones are functions (or, for [__proto__], the prototype object): they
    are truthy, have no [slot], [label], [color] or [asset], and no
    [push]. *)

Definition Object_prototype : list string :=
  [ "constructor"; "__defineGetter__"; "__defineSetter__"; "hasOwnProperty";
    "__lookupGetter__"; "__lookupSetter__"; "isPrototypeOf";
    "propertyIsEnumerable"; "toString"; "valueOf"; "__proto__";
    "toLocaleString" ].

Definition inherited_member (key : string) : bool :=
  existsb (String.eqb key) Object_prototype.

Inductive member (V : Type) : Type :=
| Own (v : V)
| Inherited
| Absent.

Arguments Own {V} v.
Arguments Inherited {V}.
Arguments Absent {V}.

(** [(tbl as any)[key]] *)
Definition read {V : Type} (tbl : table V) (key : string) : member V :=
  match get tbl key with
  | Some v => Own v
  | None => if inherited_member key then Inherited else Absent
  end.

(** A call returns a value or throws a [TypeError]. *)
Inductive outcome (A : Type) : Type :=
| Returns (a : A)
| Throws.

Arguments Returns {A} a.
Arguments Throws {A}.

(** The object literal [entry] of the first loop.  [Untyped] is the one
    built from an inherited member of the badge table:
    [{ id, label: undefined, slot: undefined, x, y, w, h, z,
       color: undefined, asset: undefined }]. *)
Inductive entry : Type :=
| Typed (p : Placed.t)
| Untyped (id : string) (x y w h z : Q).

Definition set_geometry_js (it : entry) (x' y' w' h' : Q) : entry :=
  match it with
  | Typed p => Typed (Placed.set_geometry p x' y' w' h')
  | Untyped id _ _ _ _ z => Untyped id x' y' w' h' z
  end.

Definition bySlot_js : Type := list (string * list entry).

(** [bySlot[slotKey] ??= []; bySlot[slotKey].push(entry)] for a
    [slotKey] that [bySlot] does not inherit. *)
Fixpoint push_js (slotKey : string) (e : entry) (bySlot : bySlot_js)
  : bySlot_js :=
  match bySlot with
  | [] => [(slotKey, [e])]
  | (k, items) :: rest =>
      if String.eqb slotKey k then (k, items ++ [e]) :: rest
      else (k, items) :: push_js slotKey e rest
  end.

Record LayoutJs : Type := mkLayoutJs {
  layout_js : list entry;
  warnings_js : list string
}.

Section ComputeLayoutJs.
Variable slots : table Slot.t.
Variable badges : table Badge.t.

(** Body of the first loop.
    - An inherited [spec] has no [slot]: [slotKey] is [undefined], and
      [slots[undefined]] reads the member named ["undefined"].
    - An inherited [box] is truthy, and so is [bySlot[slotKey]] then:
      [??=] leaves it, and [.push] is not a function.
    - A [slotKey] that is a member of the slot table and also a name that
      [bySlot] inherits fails at [.push] in the same way. *)
Definition group_step_js (bySlot : bySlot_js) (id : string)
  : outcome bySlot_js :=
  match read badges id with
  | Absent => Returns bySlot
  | Inherited =>
      match get slots "undefined" with
      | None => Returns bySlot
      | Some box =>
          Returns (push_js "undefined"
                     (Untyped id (Slot.x box) (Slot.y box) (Slot.w box)
                        (Slot.h box) (Slot.z box))
                     bySlot)
      end
  | Own spec =>
      let slotKey := Badge.slot spec in
      match read slots slotKey with
      | Absent => Returns bySlot
      | Inherited => Throws
      | Own box =>
          let entry :=
            Typed (Placed.mk id (Badge.label spec) slotKey
                     (Slot.x box) (Slot.y box) (Slot.w box) (Slot.h box)
                     (Slot.z box) (Badge.color spec) (Badge.asset spec)) in
          if inherited_member slotKey then Throws
          else Returns (push_js slotKey entry bySlot)
      end
  end.

Fixpoint group_loop (bySlot : bySlot_js) (selectedIds : list string)
  : outcome bySlot_js :=
  match selectedIds with
  | [] => Returns bySlot
  | id :: rest =>
      match group_step_js bySlot id with
      | Returns bySlot' => group_loop bySlot' rest
      | Throws => Throws
      end
  end.

Definition arrange_pyramid_js (slotKey : string) (box : Slot.t)
    (items : list entry) : list entry * list string :=
  let n := Nat.min 3 (List.length items) in
  let warns :=
    if (3 <? List.length items)%nat then [pyramid_warning slotKey] else [] in
  let gap := 8%Q in
  let tileH := Qmin (Slot.h box) 60 in
  let tileW := Qmin (Slot.w box) 90 in
  let placed :=
    if (n =? 1)%nat then
      match nth_error items 0 with
      | Some it =>
          [set_geometry_js it
             (Slot.x box + (Slot.w box - tileW) / 2) (Slot.y box)
             tileW tileH]
      | None => []
      end
    else if (n =? 2)%nat then
      let totalW := tileW * 2 + gap in
      let startX := Slot.x box + (Slot.w box - totalW) / 2 in
      mapi (fun it i =>
              set_geometry_js it
                (startX + of_nat i * (tileW + gap)) (Slot.y box)
                tileW tileH)
           (slice 0 2 items)
    else if (3 <=? n)%nat then
      let top :=
        match nth_error items 0 with
        | Some it =>
            [set_geometry_js it
               (Slot.x box + (Slot.w box - tileW) / 2) (Slot.y box)
               tileW tileH]
        | None => []
        end in
      let totalW := tileW * 2 + gap in
      let startX := Slot.x box + (Slot.w box - totalW) / 2 in
      top ++
      mapi (fun it i =>
              set_geometry_js it
                (startX + of_nat i * (tileW + gap))
                (Slot.y box + tileH + gap)
                tileW tileH)
           (slice 1 3 items)
    else [] in
  (placed, warns).

Definition arrange_medals_js (box : Slot.t) (items : list entry)
  : list entry * list string :=
  let gap := 10%Q in
  let tileH := Qmin (Slot.h box) 400 in
  let tileW := 50%Q in
  let n := of_nat (List.length items) in
  let totalW := n * tileW + (n - 1) * gap in
  let startX := Slot.x box + (Slot.w box - totalW) / 2 in
  (mapi (fun it i =>
           set_geometry_js it
             (startX + of_nat i * (tileW + gap)) (Slot.y box) tileW tileH)
        items,
   []).

Definition arrange_stack_js (box : Slot.t) (items : list entry)
  : list entry * list string :=
  let gap := 8%Q in
  let tileH := 36%Q in
  (mapi (fun it i =>
           set_geometry_js it
             (Slot.x box) (Slot.y box + of_nat i * (tileH + gap))
             (Slot.w box) tileH)
        items,
   []).

Definition arrange_single_js (slotKey : string) (items : list entry)
  : list entry * list string :=
  (match nth_error items 0 with Some it => [it] | None => [] end,
   if (1 <? List.length items)%nat then [single_warning slotKey] else []).

(** Body of the second loop.  The four slot identifiers it names are not
    inherited names, and a key of [bySlot] was found in the slot table by
    the first loop: the [None] cases do not arise, as in [arrange]. *)
Definition arrange_js (slotKey : string) (items : list entry)
  : list entry * list string :=
  if String.eqb slotKey "safBadges" || String.eqb slotKey "foreignBadges"
  then
    match get slots slotKey with
    | Some box => arrange_pyramid_js slotKey box items
    | None => ([], [])
    end
  else if String.eqb slotKey "medalsBelowRightPocket" then
    match get slots slotKey with
    | Some box => arrange_medals_js box items
    | None => ([], [])
    end
  else if String.eqb slotKey "rightSleeveProficiency" then
    match get slots slotKey with
    | Some box => arrange_stack_js box items
    | None => ([], [])
    end
  else arrange_single_js slotKey items.

Definition arrange_step_js (acc : LayoutJs) (e : string * list entry)
  : LayoutJs :=
  let (ps, ws) := arrange_js (fst e) (snd e) in
  mkLayoutJs (layout_js acc ++ ps) (warnings_js acc ++ ws).

(** [computeLayout(selectedIds)] as the language runs it. *)
Definition computeLayout_js (selectedIds : list string) : outcome LayoutJs :=
  match group_loop [] selectedIds with
  | Returns bySlot =>
      Returns (fold_left arrange_step_js (Object_entries bySlot)
                 (mkLayoutJs [] []))
  | Throws => Throws
  end.
End ComputeLayoutJs.

(** The typed groups and the typed layout, seen as values of
    [computeLayout_js]. *)
Definition typed_groups (bySlot : bySlot_t) : bySlot_js :=
  map (fun e => (fst e, map Typed (snd e))) bySlot.

Definition typed_layout (r : Layout) : LayoutJs :=
  mkLayoutJs (map Typed (layout r)) (warnings r).

(** ** Double-precision arithmetic

    [fitFontSize] multiplies and divides numbers that are not small
    integers, and floors the results, so the rounding of the arithmetic
    shows in what it returns.  A double is modelled by the rational it
    denotes, and an operation by the exact operation followed by
    [round53], the rounding to the nearest number with a 53-bit
    significand, ties to the even one.  The exponent is not bounded:
    magnitudes from about 1.8e308 on, where the language gives
    [Infinity], and below about 2.2e-308, where it keeps fewer bits, are
    outside the model. *)

(** The nearest integer, ties to the even one. *)
Definition rne (y : Q) : Z :=
  let f := Qfloor y in
  match Qcompare (y - inject_Z f) (1 # 2) with
  | Lt => f
  | Gt => (f + 1)%Z
  | Eq => if Z.even f then f else (f + 1)%Z
  end.

(** The exponent [e] with [2^e <= |q| < 2^(e+1)], for [q] other than 0. *)
Definition binade (q : Q) : Z :=
  let k := (Z.log2 (Z.abs (Qnum q)) - Z.log2 (Zpos (Qden q)))%Z in
  if Qle_bool (2 ^ k) (Qabs q) then k else (k - 1)%Z.

(** The double nearest to [q]. *)
Definition round53 (q : Q) : Q :=
  if Qeq_bool q 0 then 0
  else inject_Z (rne (q / 2 ^ (binade q - 52))) * 2 ^ (binade q - 52).

(** [x * y], [x - y] and [x / y] on doubles. *)
Definition fmul (x y : Q) : Q := round53 (x * y).

Definition fsub (x y : Q) : Q := round53 (x - y).

Definition fdiv (x y : Q) : Q := round53 (x / y).

(** Half the distance, relative to its size, between a number and the
    next double: [2^-53]. *)
Definition half_ulp : Q := 1 # 9007199254740992.

(** ** Strings

    A [string] holds the UTF-8 text of a JavaScript string.  [s.length]
    counts UTF-16 code units: one for a character of one, two or three
    bytes, two for a character of four bytes. *)
Definition utf16_units (c : ascii) : nat :=
  let n := N_of_ascii c in
  if (n <? 128)%N then 1%nat
  else if (n <? 192)%N then 0%nat
  else if (n <? 240)%N then 1%nat
  else 2%nat.

Fixpoint js_length (s : string) : nat :=
  match s with
  | EmptyString => 0%nat
  | String c rest => (utf16_units c + js_length rest)%nat
  end.

(** ** The text-fit estimator *)

(** A finite number or [+Infinity]. *)
Inductive xnum : Type :=
| Fin (q : Q)
| PInf.

(** [a / b] where [a] is positive: a zero divisor gives [+Infinity]. *)
Definition div_pos (a b : Q) : xnum :=
  if Qeq_bool b 0 then PInf else Fin (fdiv a b).

(** [a * b] where [b] is positive. *)
Definition xmul (a : xnum) (b : Q) : xnum :=
  match a with
  | Fin q => Fin (fmul q b)
  | PInf => PInf
  end.

(** [Math.min(a, b)] where [a] is finite. *)
Definition min_fin (a : Q) (b : xnum) : Q :=
  match b with
  | Fin q => Qmin a q
  | PInf => a
  end.

Module FitOpts.
Record t : Type := mk {
  padding : option Q;
  maxHeightRatio : option Q;
  weight : option string;
  family : option string
}.
End FitOpts.

(** [opts?.field ?? dflt] *)
Definition opt_or {A : Type} (opts : option FitOpts.t)
    (field : FitOpts.t -> option A) (dflt : A) : A :=
  match opts with
  | Some o => match field o with Some v => v | None => dflt end
  | None => dflt
  end.

(** The measuring context: the width of a text drawn in a font. *)
Definition MeasureCtx : Type := string -> string -> Q.

(** [ctx.measureText(label).width || BASE * 0.6 * label.length] with
    [BASE = 100]: a width of [0] is falsy and gives way to the estimate.
    The literal [0.6] is the double nearest to it. *)
Definition measured_width (measureText : MeasureCtx) (font label : string)
  : Q :=
  let width := measureText font label in
  if Qeq_bool width 0
  then fmul (fmul 100 (round53 0.6)) (of_nat (js_length label))
  else width.

(** [ctx] is the result of [getCtx()]; [None] when no canvas context can
    be had.  The default ratio is the double nearest to [0.7]. *)
Definition fitFontSize (ctx : option MeasureCtx) (label : string)
    (boxW boxH : Q) (opts : option FitOpts.t) : Z :=
  let padding := opt_or opts FitOpts.padding 8%Q in
  let maxHeightRatio := opt_or opts FitOpts.maxHeightRatio (round53 0.7) in
  let weight := opt_or opts FitOpts.weight "600" in
  let family := opt_or opts FitOpts.family "Inter, Arial, sans-serif" in
  let maxFontByHeight := Qmax 10 (fmul boxH maxHeightRatio) in
  match ctx with
  | None => Qfloor (Qmin 18 maxFontByHeight)
  | Some measureText =>
      let BASE := 100%Q in
      let font := (weight ++ " 100px " ++ family)%string in
      let measured := measured_width measureText font label in
      let availableW := Qmax 10 (fsub boxW (fmul padding 2)) in
      let fontByWidth := xmul (div_pos availableW measured) BASE in
      Z.max 10 (Qfloor (min_fin maxFontByHeight fontByWidth))
  end.

(** The size as section 4.2 of the specification words it:
    [floor(max(10, min(heightBoundSize, widthBoundSize)))], in the same
    arithmetic. *)
Definition fitFontSize_spec (measuredWidthAtReference : Q)
    (boxWidth boxHeight padding maxHeightRatio : Q) : Z :=
  let referenceSize := 100%Q in
  let heightBoundSize := Qmax 10 (fmul boxHeight maxHeightRatio) in
  let availableWidth := Qmax 10 (fsub boxWidth (fmul 2 padding)) in
  let widthBoundSize :=
    xmul (div_pos availableWidth measuredWidthAtReference) referenceSize in
  Qfloor (Qmax 10 (min_fin heightBoundSize widthBoundSize)).

(** ** Sample tables

    Small tables in the shape the code expects, used to run the functions
    on concrete selections. *)
Module Samples.
Definition slots : table Slot.t :=
  [ ("leftSleeveRank", Slot.mk 200 400 120 80 1);
    ("safBadges", Slot.mk 560 300 200 130 2);
    ("foreignBadges", Slot.mk 240 300 200 130 2);
    ("medalsBelowRightPocket", Slot.mk 540 460 240 60 3);
    ("rightSleeveProficiency", Slot.mk 800 400 100 200 1) ].

Definition badge (label category slot color : string) : Badge.t :=
  Badge.mk label category slot color None.

Definition badges : table Badge.t :=
  [ ("sergeant", badge "3SG" "rank" "leftSleeveRank" "#1f2937");
    ("captain", badge "CPT" "rank" "leftSleeveRank" "#111827");
    ("saf_a", badge "Airborne" "saf" "safBadges" "#065f46");
    ("saf_b", badge "Ranger" "saf" "safBadges" "#047857");
    ("saf_c", badge "Diver" "saf" "safBadges" "#059669");
    ("saf_d", badge "Sniper" "saf" "safBadges" "#10b981");
    ("wings_us", badge "US Wings" "foreign" "foreignBadges" "#1d4ed8");
    ("medal_x", badge "LSM" "medal" "medalsBelowRightPocket" "#b45309");
    ("medal_y", badge "GCM" "medal" "medalsBelowRightPocket" "#92400e");
    ("marksman", badge "MM" "proficiency" "rightSleeveProficiency" "#7c3aed");
    ("ghost", badge "Ghost" "saf" "noSuchSlot" "#000000") ].

(** A badge table with an item whose slot identifier is no member of the
    slot table, and is a name every object inherits. *)
Definition odd_badges : table Badge.t :=
  ("odd", badge "Odd" "saf" "constructor" "#000000") :: badges.

(** A slot table with a member named ["undefined"]. *)
Definition undefined_slots : table Slot.t :=
  ("undefined", Slot.mk 10 20 30 40 5) :: slots.

(** Tables whose slot identifiers are array indices. *)
Definition numbered_slots : table Slot.t :=
  [ ("2", Slot.mk 100 100 80 80 1); ("1", Slot.mk 300 100 80 80 1) ].

Definition numbered_badges : table Badge.t :=
  [ ("a", badge "A" "rank" "2" "#111111");
    ("b", badge "B" "rank" "2" "#222222");
    ("c", badge "C" "rank" "1" "#333333");
    ("d", badge "D" "rank" "1" "#444444") ].

(** A measuring context that gives every character 50 units of width at
    the reference size. *)
Definition fixed_pitch : MeasureCtx :=
  fun _ text => 50 * of_nat (js_length text).

(** A measuring context that reports no width at all. *)
Definition blind : MeasureCtx := fun _ _ => 0.
End Samples.

(** ** Vocabulary of the statements *)

Section Vocabulary.
Variable slots : table Slot.t.
Variable badges : table Badge.t.

(** The entries the grouping loop builds, in selection order. *)
Definition resolved (selectedIds : list string) : list Placed.t :=
  flat_map (fun id => match make_entry slots badges id with
                      | Some entry => [entry]
                      | None => []
                      end) selectedIds.

(** The resolvable items routed to the slot [slotKey], in selection
    order. *)
Definition routed (slotKey : string) (selectedIds : list string)
  : list Placed.t :=
  filter (fun e => String.eqb (Placed.slot e) slotKey) (resolved selectedIds).

(** What the second loop pushes on [placed] and on [warnings] for one
    member of [bySlot]. *)
Definition placed_by (e : string * list Placed.t) : list Placed.t :=
  fst (arrange slots (fst e) (snd e)).

Definition warned_by (e : string * list Placed.t) : list string :=
  snd (arrange slots (fst e) (snd e)).
End Vocabulary.

(** The placements of a layout that lie in the slot [slotKey]. *)
Definition placements_of (slotKey : string) (l : list Placed.t)
  : list Placed.t :=
  filter (fun p => String.eqb (Placed.slot p) slotKey) l.


Definition is_pyramid_slot (slotKey : string) : bool :=
  String.eqb slotKey "safBadges" || String.eqb slotKey "foreignBadges".

Definition is_single_slot (slotKey : string) : bool :=
  negb (is_pyramid_slot slotKey)
  && negb (String.eqb slotKey "medalsBelowRightPocket")
  && negb (String.eqb slotKey "rightSleeveProficiency").

(** Everything but the geometry of [p] is that of [it]. *)
Definition same_item (p it : Placed.t) : Prop :=
  Placed.id p = Placed.id it /\ Placed.label p = Placed.label it /\
  Placed.slot p = Placed.slot it /\ Placed.z p = Placed.z it /\
  Placed.color p = Placed.color it /\ Placed.asset p = Placed.asset it.




(** The distinct elements of a list in the order of their first
    occurrence. *)
Fixpoint first_occurrences (l : list string) : list string :=
  match l with
  | [] => []
  | k :: rest =>
      k :: filter (fun k' => negb (String.eqb k' k)) (first_occurrences rest)
  end.

(** The characters of a string, last one first. *)
Fixpoint rev_chars (s : string) (acc : list ascii) : list ascii :=
  match s with
  | EmptyString => acc
  | String c s' => rev_chars s' (c :: acc)
  end.

(** ** The code around the engine

    The rest of [UniformBadgeVisualizer.tsx] that can be read as functions
    on data: the cache of the measuring context, the option lists of the
    five selects, the state of the component with its event handlers, and
    the part of the rendering that orders and draws the placements.  The
    PNG export works on the document only and is left out. *)

(** [getCtx()].  [_measureCtx] is the module-level cache before the call
    and [created] is what
    [document.createElement('canvas').getContext('2d')] gives if it is
    asked; the result is the context returned and the cache after the
    call. *)
Definition getCtx (_measureCtx : option MeasureCtx)
    (created : option MeasureCtx) : option MeasureCtx * option MeasureCtx :=
  match _measureCtx with
  | Some c => (Some c, _measureCtx)
  | None => (created, created)
  end.

(** A call of [fitFontSize] as the source has it, with [getCtx()] inside:
    the size and the cache after the call. *)
Definition fitFontSize_call (_measureCtx created : option MeasureCtx)
    (label : string) (boxW boxH : Q) (opts : option FitOpts.t)
  : Z * option MeasureCtx :=
  let (ctx, cache) := getCtx _measureCtx created in
  (fitFontSize ctx label boxW boxH opts, cache).

(** Successive calls of [fitFontSize] on the entries of [calls], each with
    what the document would give at that moment. *)
Fixpoint fitFontSize_calls (_measureCtx : option MeasureCtx)
    (calls : list (option MeasureCtx * (string * Q * Q)))
  : list Z * option MeasureCtx :=
  match calls with
  | [] => ([], _measureCtx)
  | (created, (label, boxW, boxH)) :: rest =>
      let (size, cache) :=
        fitFontSize_call _measureCtx created label boxW boxH None in
      let (sizes, cache') := fitFontSize_calls cache rest in
      (size :: sizes, cache')
  end.

(** [Object.entries(badges).filter(([, b]) => b.category === category)
    .map(([id]) => id)] *)
Definition ids_of_category (badges : table Badge.t) (category : string)
  : list string :=
  map fst
    (filter (fun e => String.eqb (Badge.category (snd e)) category)
       (Object_entries badges)).

Definition RANK_IDS (badges : table Badge.t) : list string :=
  ids_of_category badges "rank".

Definition SAF_IDS (badges : table Badge.t) : list string :=
  ids_of_category badges "saf".

Definition FOR_IDS (badges : table Badge.t) : list string :=
  ids_of_category badges "foreign".

Definition MED_IDS (badges : table Badge.t) : list string :=
  ids_of_category badges "medal".

Definition PROF_IDS (badges : table Badge.t) : list string :=
  ids_of_category badges "proficiency".

(** [arr.sort((a, b) => key(a) - key(b))].  The sort of the language is
    stable; [insert_sorted] puts an element before the first one whose key
    is not smaller, so that equal keys keep their order. *)
Section Sort.
Context {A : Type} (key : A -> Q).

Fixpoint insert_sorted (a : A) (l : list A) : list A :=
  match l with
  | [] => [a]
  | b :: l' =>
      if Qle_bool (key a) (key b) then a :: l else b :: insert_sorted a l'
  end.

Definition sort_by (l : list A) : list A := fold_right insert_sorted [] l.
End Sort.

Module Component.
(** The [useState] cells of [UniformBadgeVisualizer]. *)
Record State : Type := mkState {
  selectedRank : string;
  selectedSAF : list string;
  selectedFOR : list string;
  selectedMED : list string;
  selectedPROF : list string;
  confirmed : bool
}.

Definition initial : State := mkState "" [] [] [] [] false.

(** What the user can do.  A change event carries the values of the
    selected options of its select element, in document order. *)
Inductive Event : Type :=
| RankChanged (value : string)
| SAFChanged (values : list string)
| FORChanged (values : list string)
| MEDChanged (values : list string)
| PROFChanged (values : list string)
| ConfirmClicked.

(** The handlers: the inline handler of the rank select, [onChangeSAF],
    [onChangeFOR], [onChangeMED], [onChangePROF] and [confirm]. *)
Definition handle (st : State) (e : Event) : State :=
  match e with
  | RankChanged value =>
      mkState value (selectedSAF st) (selectedFOR st) (selectedMED st)
        (selectedPROF st) false
  | SAFChanged values =>
      mkState (selectedRank st) (slice 0 3 values) (selectedFOR st)
        (selectedMED st) (selectedPROF st) false
  | FORChanged values =>
      mkState (selectedRank st) (selectedSAF st) (slice 0 3 values)
        (selectedMED st) (selectedPROF st) false
  | MEDChanged values =>
      mkState (selectedRank st) (selectedSAF st) (selectedFOR st) values
        (selectedPROF st) false
  | PROFChanged values =>
      mkState (selectedRank st) (selectedSAF st) (selectedFOR st)
        (selectedMED st) values false
  | ConfirmClicked =>
      mkState (selectedRank st) (selectedSAF st) (selectedFOR st)
        (selectedMED st) (selectedPROF st) true
  end.

Definition run (st : State) (events : list Event) : State :=
  fold_left handle events st.

(** The [ids] of the [useMemo] body:
    [[selectedRank, ...selectedSAF, ...selectedFOR, ...selectedMED,
      ...selectedPROF].filter(Boolean)]. *)
Definition ids (st : State) : list string :=
  filter (fun id => negb (String.eqb id ""))
    (selectedRank st
     :: selectedSAF st ++ selectedFOR st ++ selectedMED st
        ++ selectedPROF st).

(** The value of the [useMemo]: [computeLayout(ids)]. *)
Definition memo (slots : table Slot.t) (badges : table Badge.t) (st : State)
  : Layout :=
  computeLayout slots badges (ids st).

(** One drawn badge: the [rect] and the [text] of a placement. *)
Record Drawn : Type := mkDrawn {
  key : string;
  rect_x : Q;
  rect_y : Q;
  rect_w : Q;
  rect_h : Q;
  fill : string;
  text_x : Q;
  text_y : Q;
  fontSize : Z;
  text : string
}.

Definition draw (ctx : option MeasureCtx) (b : Placed.t) : Drawn :=
  mkDrawn (Placed.id b) (Placed.x b) (Placed.y b) (Placed.w b) (Placed.h b)
    (Placed.color b)
    (Placed.x b + Placed.w b / 2) (Placed.y b + Placed.h b / 2)
    (fitFontSize ctx (Placed.label b) (Placed.w b) (Placed.h b) None)
    (Placed.label b).

(** [confirmed && layout.sort((a, b) => a.z - b.z).map(...)].  [arr] is
    the content of the memoised [layout] array; the sort is in place, so
    the result gives what is drawn and the content of the array after the
    render. *)
Definition render_badges (ctx : option MeasureCtx) (is_confirmed : bool)
    (arr : list Placed.t) : list Drawn * list Placed.t :=
  if is_confirmed
  then (map (draw ctx) (sort_by Placed.z arr), sort_by Placed.z arr)
  else ([], arr).

(** Renders one after the other over the same memoised array. *)
Fixpoint render_times (ctx : option MeasureCtx) (is_confirmed : bool)
    (n : nat) (arr : list Placed.t) : list (list Drawn) * list Placed.t :=
  match n with
  | O => ([], arr)
  | S n' =>
      let (drawn, arr') := render_badges ctx is_confirmed arr in
      let (rest, arr'') := render_times ctx is_confirmed n' arr' in
      (drawn :: rest, arr'')
  end.

(** The slot overlay:
    [Object.entries(slots).sort((a, b) => a[1].z - b[1].z)]. *)
Definition overlay (slots : table Slot.t) : list (string * Slot.t) :=
  sort_by (fun e => Slot.z (snd e)) (Object_entries slots).

(** The selection is one the select elements can hold: the rank is unset
    or one of the rank options, and the values of a multiple select are
    distinct options of that select. *)
Definition from_options (badges : table Badge.t) (st : State) : Prop :=
  (selectedRank st = "" \/ In (selectedRank st) (RANK_IDS badges)) /\
  (NoDup (selectedSAF st) /\ incl (selectedSAF st) (SAF_IDS badges)) /\
  (NoDup (selectedFOR st) /\ incl (selectedFOR st) (FOR_IDS badges)) /\
  (NoDup (selectedMED st) /\ incl (selectedMED st) (MED_IDS badges)) /\
  (NoDup (selectedPROF st) /\ incl (selectedPROF st) (PROF_IDS badges)).
End Component.


(** What the arrangement rule of [slotKey] keeps of the items routed to
    it: three, all, or one. *)
Definition kept (slotKey : string) (items : list Placed.t) : list Placed.t :=
  if is_pyramid_slot slotKey then firstn 3 items
  else if is_single_slot slotKey then firstn 1 items
  else items.



(** * Properties *)

(** ** Strings *)

Lemma append_length (s t : string) :
  String.length (s ++ t) = (String.length s + String.length t)%nat.
Proof. induction s as [|c s IH]; simpl; [reflexivity | now rewrite IH]. Qed.

Lemma append_inj_l (t s1 s2 : string) : (s1 ++ t = s2 ++ t)%string -> s1 = s2.
Proof.
  revert s2; induction s1 as [|c1 s1 IH]; intros [|c2 s2] H; simpl in H.
  - reflexivity.
  - apply (f_equal String.length) in H; simpl in H.
    rewrite append_length in H; lia.
  - apply (f_equal String.length) in H; simpl in H.
    rewrite append_length in H; lia.
  - injection H as -> H. f_equal. now apply IH.
Qed.

Lemma rev_chars_acc (s : string) (acc : list ascii) :
  rev_chars s acc = rev_chars s [] ++ acc.
Proof.
  revert acc; induction s as [|c s IH]; intros acc; simpl; [reflexivity|].
  rewrite (IH [c]), (IH (c :: acc)), <- app_assoc. reflexivity.
Qed.

Lemma rev_chars_append (s t : string) :
  rev_chars (s ++ t) [] = rev_chars t [] ++ rev_chars s [].
Proof.
  induction s as [|c s IH]; simpl.
  - now rewrite app_nil_r.
  - rewrite (rev_chars_acc (s ++ t)), (rev_chars_acc s), IH, app_assoc.
    reflexivity.
Qed.

Lemma warnings_differ (k1 k2 : string) :
  pyramid_warning k1 <> single_warning k2.
Proof.
  unfold pyramid_warning, single_warning; intros H.
  apply (f_equal (fun s => firstn 2 (rev_chars s []))) in H.
  rewrite !rev_chars_append in H. simpl in H. discriminate H.
Qed.

Lemma pyramid_warning_inj (k1 k2 : string) :
  pyramid_warning k1 = pyramid_warning k2 -> k1 = k2.
Proof. apply append_inj_l. Qed.


(** ** Lists and tables *)



Lemma in_mapi_from {A B : Type} (f : A -> nat -> B) (l : list A) (s : nat)
    (p : B) :
  In p (mapi_from f s l) ->
  exists it i, (s <= i)%nat /\ In it l /\ p = f it i.
Proof.
  revert s; induction l as [|a l IH]; intros s; simpl; [tauto|].
  intros [<- | H].
  - exists a, s; auto.
  - destruct (IH _ H) as (it & i & Hle & Hin & ->).
    exists it, i. repeat split; [lia | now right].
Qed.

Lemma filter_none {A : Type} (f : A -> bool) (l : list A) :
  (forall a, In a l -> f a = false) -> filter f l = [].
Proof.
  induction l as [|a l IH]; intros H; simpl; [reflexivity|].
  rewrite (H a) by now left. apply IH. intros b Hb. apply H. now right.
Qed.

Lemma get_In {V : Type} (tbl : table V) (k : string) (v : V) :
  get tbl k = Some v -> In (k, v) tbl.
Proof.
  induction tbl as [|[k' v'] tbl IH]; simpl; [discriminate|].
  destruct (String.eqb_spec k k') as [->|Hne].
  - intros [= ->]; now left.
  - intros H; right; auto.
Qed.

Lemma get_None {V : Type} (tbl : table V) (k : string) :
  get tbl k = None <-> ~ In k (map fst tbl).
Proof.
  induction tbl as [|[k' v'] tbl IH]; simpl; [tauto|].
  destruct (String.eqb_spec k k') as [->|Hne].
  - split; [discriminate | intros H; exfalso; apply H; now left].
  - rewrite IH. split; [intros H [E|E]; [congruence | tauto] | tauto].
Qed.

Lemma In_get {V : Type} (tbl : table V) (k : string) (v : V) :
  NoDup (map fst tbl) -> In (k, v) tbl -> get tbl k = Some v.
Proof.
  induction tbl as [|[k' v'] tbl IH]; simpl; [tauto|].
  intros Hnd; inversion Hnd as [|? ? Hni Hnd']; subst.
  intros [[= -> ->] | Hin].
  - now rewrite String.eqb_refl.
  - destruct (String.eqb_spec k k') as [->|Hne]; [|auto].
    exfalso; apply Hni. change k' with (fst (k', v)). now apply in_map.
Qed.

Lemma get_perm {V : Type} (t1 t2 : table V) (k : string) :
  NoDup (map fst t1) -> Permutation t1 t2 -> get t1 k = get t2 k.
Proof.
  intros Hnd Hp.
  assert (Hnd2 : NoDup (map fst t2)).
  { eapply Permutation_NoDup; [apply Permutation_map, Hp | exact Hnd]. }
  destruct (get t1 k) as [v|] eqn:E1.
  - symmetry. apply In_get; [exact Hnd2|].
    eapply Permutation_in; [exact Hp | now apply get_In].
  - destruct (get t2 k) as [v|] eqn:E2; [|reflexivity].
    apply get_In in E2. apply Permutation_sym in Hp.
    eapply Permutation_in in E2; [|exact Hp].
    apply In_get in E2; [congruence | exact Hnd].
Qed.

(** ** Order of [Object_entries] *)

Lemma insert_index_perm {V : Type} (n : N) (e : string * V)
    (l : list (N * (string * V))) :
  Permutation (insert_index n e l) ((n, e) :: l).
Proof.
  induction l as [|[m e'] l IH]; simpl; [reflexivity|].
  destruct (n <? m)%N; [reflexivity|].
  rewrite IH. apply perm_swap.
Qed.

Lemma index_members_perm {V : Type} (o : list (string * V)) :
  Permutation (map snd (index_members o))
              (filter (fun e => is_array_index (fst e)) o).
Proof.
  induction o as [|e o IH]; simpl; [reflexivity|].
  unfold is_array_index at 1.
  destruct (array_index (fst e)) as [n|]; [|exact IH].
  rewrite insert_index_perm. simpl. now constructor.
Qed.

Lemma filter_split_perm {A : Type} (f : A -> bool) (l : list A) :
  Permutation (filter f l ++ filter (fun a => negb (f a)) l) l.
Proof.
  induction l as [|a l IH]; simpl; [reflexivity|].
  destruct (f a); simpl.
  - now constructor.
  - rewrite <- Permutation_middle. now constructor.
Qed.

Lemma Object_entries_perm {V : Type} (o : list (string * V)) :
  Permutation (Object_entries o) o.
Proof.
  unfold Object_entries. rewrite index_members_perm.
  apply (filter_split_perm (fun e => is_array_index (fst e))).
Qed.


(** ** First occurrences *)

Lemma In_first_occurrences (l : list string) (k : string) :
  In k (first_occurrences l) <-> In k l.
Proof.
  induction l as [|a l IH]; simpl; [tauto|].
  rewrite filter_In, IH, negb_true_iff, String.eqb_neq.
  destruct (string_dec a k); [tauto|]. intuition congruence.
Qed.

Lemma NoDup_first_occurrences (l : list string) :
  NoDup (first_occurrences l).
Proof.
  induction l as [|a l IH]; simpl; constructor.
  - rewrite filter_In, negb_true_iff, String.eqb_neq. tauto.
  - now apply NoDup_filter.
Qed.

Lemma first_occurrences_snoc (l : list string) (k : string) :
  first_occurrences (l ++ [k])
  = if existsb (String.eqb k) l then first_occurrences l
    else first_occurrences l ++ [k].
Proof.
  induction l as [|a l IH]; simpl; [reflexivity|].
  rewrite IH. destruct (String.eqb_spec k a) as [->|Hne]; simpl.
  - destruct (existsb (String.eqb a) l); [reflexivity|].
    rewrite filter_app; simpl. rewrite String.eqb_refl; simpl.
    now rewrite app_nil_r.
  - destruct (existsb (String.eqb k) l); [reflexivity|].
    rewrite filter_app; simpl.
    apply String.eqb_neq in Hne; rewrite Hne; reflexivity.
Qed.

(** ** The grouping loop *)

Lemma get_push_entry (k : string) (e : Placed.t) (g : bySlot_t) (k' : string) :
  get (push_entry k e g) k'
  = if String.eqb k' k
    then Some (match get g k with Some items => items ++ [e] | None => [e] end)
    else get g k'.
Proof.
  induction g as [|[k0 items] g IH]; simpl.
  - destruct (String.eqb k' k); reflexivity.
  - destruct (String.eqb_spec k k0) as [->|Hne]; simpl.
    + destruct (String.eqb_spec k' k0); reflexivity.
    + rewrite IH. destruct (String.eqb_spec k' k0) as [->|Hne'].
      * apply not_eq_sym, String.eqb_neq in Hne. now rewrite Hne.
      * reflexivity.
Qed.

Lemma keys_push_entry (k : string) (e : Placed.t) (g : bySlot_t) :
  map fst (push_entry k e g)
  = if existsb (String.eqb k) (map fst g) then map fst g
    else map fst g ++ [k].
Proof.
  induction g as [|[k0 items] g IH]; simpl; [reflexivity|].
  destruct (String.eqb k k0); simpl; [reflexivity|].
  rewrite IH. destruct (existsb (String.eqb k) (map fst g)); reflexivity.
Qed.

Section Grouping.
Variable slots : table Slot.t.
Variable badges : table Badge.t.

Lemma make_entry_Some (id : string) (e : Placed.t) :
  make_entry slots badges id = Some e ->
  exists spec box,
    get badges id = Some spec /\ get slots (Badge.slot spec) = Some box /\
    e = Placed.mk id (Badge.label spec) (Badge.slot spec)
          (Slot.x box) (Slot.y box) (Slot.w box) (Slot.h box) (Slot.z box)
          (Badge.color spec) (Badge.asset spec).
Proof.
  unfold make_entry. destruct (get badges id) as [spec|]; [|discriminate].
  destruct (get slots (Badge.slot spec)) as [box|] eqn:Hbox; [|discriminate].
  intros [= <-]. exists spec, box. auto.
Qed.

Lemma groupBySlot_snoc (ids : list string) (id : string) :
  groupBySlot slots badges (ids ++ [id])
  = group_step slots badges (groupBySlot slots badges ids) id.
Proof. unfold groupBySlot. now rewrite fold_left_app. Qed.

Lemma resolved_app (l1 l2 : list string) :
  resolved slots badges (l1 ++ l2)
  = resolved slots badges l1 ++ resolved slots badges l2.
Proof. apply flat_map_app. Qed.

Lemma routed_app (k : string) (l1 l2 : list string) :
  routed slots badges k (l1 ++ l2)
  = routed slots badges k l1 ++ routed slots badges k l2.
Proof. unfold routed. now rewrite resolved_app, filter_app. Qed.

Lemma routed_slot (k : string) (ids : list string) (e : Placed.t) :
  In e (routed slots badges k ids) -> Placed.slot e = k.
Proof. unfold routed. rewrite filter_In, String.eqb_eq. tauto. Qed.

Lemma resolved_In (ids : list string) (e : Placed.t) :
  In e (resolved slots badges ids) <->
  In (Placed.id e) ids /\ make_entry slots badges (Placed.id e) = Some e.
Proof.
  unfold resolved. rewrite in_flat_map. split.
  - intros (id & Hin & He).
    destruct (make_entry slots badges id) as [e'|] eqn:E; [|contradiction].
    destruct He as [<-|[]].
    destruct (make_entry_Some _ _ E) as (spec & box & _ & _ & ->); simpl.
    split; [exact Hin | exact E].
  - intros [Hin E]. exists (Placed.id e). rewrite E. split; [exact Hin | now left].
Qed.

(** The group stored under a key is the list of items routed to it, and a
    key is present exactly when that list is not empty. *)
Lemma get_groupBySlot (ids : list string) (k : string) :
  get (groupBySlot slots badges ids) k
  = match routed slots badges k ids with
    | [] => None
    | items => Some items
    end.
Proof.
  induction ids as [|id ids IH] using rev_ind; [reflexivity|].
  rewrite groupBySlot_snoc, routed_app. unfold group_step.
  unfold routed at 2, resolved; simpl.
  destruct (make_entry slots badges id) as [e|]; simpl.
  - rewrite get_push_entry, (String.eqb_sym k).
    destruct (String.eqb_spec (Placed.slot e) k) as [<-|Hne].
    + rewrite IH.
      destruct (routed slots badges (Placed.slot e) ids); reflexivity.
    + now rewrite IH, app_nil_r.
  - now rewrite IH, app_nil_r.
Qed.

Lemma groupBySlot_keys (ids : list string) :
  map fst (groupBySlot slots badges ids)
  = first_occurrences (map Placed.slot (resolved slots badges ids)).
Proof.
  induction ids as [|id ids IH] using rev_ind; [reflexivity|].
  rewrite groupBySlot_snoc, resolved_app. unfold group_step.
  unfold resolved at 2; simpl.
  destruct (make_entry slots badges id) as [e|]; simpl.
  - rewrite keys_push_entry, map_app; simpl map.
    rewrite first_occurrences_snoc, IH.
    assert (Hmem : existsb (String.eqb (Placed.slot e))
                     (first_occurrences
                        (map Placed.slot (resolved slots badges ids)))
                   = existsb (String.eqb (Placed.slot e))
                       (map Placed.slot (resolved slots badges ids))).
    { apply eq_true_iff_eq. rewrite !existsb_exists.
      split; intros (x & Hin & Hx); exists x; split; auto;
        now apply In_first_occurrences. }
    rewrite Hmem. reflexivity.
  - now rewrite app_nil_r.
Qed.

Lemma groupBySlot_NoDup (ids : list string) :
  NoDup (map fst (groupBySlot slots badges ids)).
Proof. rewrite groupBySlot_keys. apply NoDup_first_occurrences. Qed.

Lemma groupBySlot_In (ids : list string) (k : string) (items : list Placed.t) :
  In (k, items) (groupBySlot slots badges ids) <->
  items = routed slots badges k ids /\ items <> [].
Proof.
  split.
  - intros Hin. apply In_get in Hin; [|apply groupBySlot_NoDup].
    rewrite get_groupBySlot in Hin.
    destruct (routed slots badges k ids); [discriminate|].
    injection Hin as <-. split; [reflexivity | discriminate].
  - intros [-> Hne]. apply get_In. rewrite get_groupBySlot.
    destruct (routed slots badges k ids); [congruence | reflexivity].
Qed.

(** Every key of [bySlot] is a slot of the table. *)
Lemma groupBySlot_box (ids : list string) (k : string) (items : list Placed.t) :
  In (k, items) (groupBySlot slots badges ids) ->
  exists box, get slots k = Some box.
Proof.
  intros Hin. apply groupBySlot_In in Hin as [-> Hne].
  destruct (routed slots badges k ids) as [|e l] eqn:E; [congruence|].
  assert (He : In e (routed slots badges k ids)) by (rewrite E; now left).
  pose proof (routed_slot _ _ _ He) as Hslot.
  unfold routed in He. apply filter_In in He as [He _].
  apply resolved_In in He as [_ He].
  destruct (make_entry_Some _ _ He) as (spec & box & _ & Hbox & He').
  rewrite He' in Hslot. simpl in Hslot. subst k. eauto.
Qed.

(** Every group of [bySlot] holds at least one item. *)
Lemma groupBySlot_nonempty (ids : list string) (k : string)
    (items : list Placed.t) :
  In (k, items) (groupBySlot slots badges ids) -> items <> [].
Proof. intros Hin. now apply groupBySlot_In in Hin. Qed.

End Grouping.

(** ** The arrangement loop *)

Lemma filter_flat_map_keyed (F : string * list Placed.t -> list Placed.t)
    (es : bySlot_t) (k : string) :
  NoDup (map fst es) ->
  (forall e p, In e es -> In p (F e) -> Placed.slot p = fst e) ->
  placements_of k (flat_map F es)
  = match get es k with Some items => F (k, items) | None => [] end.
Proof.
  unfold placements_of.
  induction es as [|[k0 items] es IH]; intros Hnd HF; [reflexivity|].
  inversion Hnd as [|? ? Hni Hnd']; subst. simpl.
  rewrite filter_app, (IH Hnd' (fun e p He => HF e p (or_intror He))).
  destruct (String.eqb_spec k k0) as [->|Hne].
  - apply get_None in Hni. rewrite Hni, app_nil_r.
    apply forallb_filter_id, forallb_forall. intros p Hp.
    apply String.eqb_eq. apply (HF (k0, items) p); [now left | exact Hp].
  - replace (filter _ (F (k0, items))) with (@nil Placed.t); [reflexivity|].
    symmetry. apply filter_none. intros p Hp.
    apply String.eqb_neq. intros Heq. apply Hne. rewrite <- Heq.
    apply (HF (k0, items) p); [now left | exact Hp].
Qed.

Section Arrangement.
Variable slots : table Slot.t.
Variable badges : table Badge.t.

Lemma fold_arrange_step (es : bySlot_t) (acc : Layout) :
  fold_left (arrange_step slots) es acc
  = mkLayout (layout acc ++ flat_map (placed_by slots) es)
             (warnings acc ++ flat_map (warned_by slots) es).
Proof.
  revert acc; induction es as [|e es IH]; intros [ps ws]; simpl.
  - now rewrite !app_nil_r.
  - rewrite IH. unfold arrange_step, placed_by, warned_by.
    destruct (arrange slots (fst e) (snd e)) as [ps' ws']; simpl.
    now rewrite <- !app_assoc.
Qed.

Lemma computeLayout_layout (ids : list string) :
  layout (computeLayout slots badges ids)
  = flat_map (placed_by slots) (Object_entries (groupBySlot slots badges ids)).
Proof. unfold computeLayout. now rewrite fold_arrange_step. Qed.

Lemma computeLayout_warnings (ids : list string) :
  warnings (computeLayout slots badges ids)
  = flat_map (warned_by slots) (Object_entries (groupBySlot slots badges ids)).
Proof. unfold computeLayout. now rewrite fold_arrange_step. Qed.

Lemma arrange_nil (k : string) : arrange slots k [] = ([], []).
Proof.
  unfold arrange.
  repeat match goal with
         | |- context [if ?b then _ else _] => destruct b
         | |- context [match get slots k with _ => _ end] =>
             destruct (get slots k)
         end; reflexivity.
Qed.

Lemma same_item_set_geometry (it : Placed.t) (x y w h : Q) :
  same_item (Placed.set_geometry it x y w h) it.
Proof. unfold same_item; simpl; auto 10. Qed.

Lemma same_item_refl (it : Placed.t) : same_item it it.
Proof. unfold same_item; auto 10. Qed.

(** A placement is one of the items of its group, moved and resized. *)
Lemma arrange_same_item (k : string) (items : list Placed.t) (p : Placed.t) :
  In p (fst (arrange slots k items)) ->
  exists it, In it items /\ same_item p it.
Proof.
  unfold arrange.
  destruct (_ || _).
  - destruct (get slots k) as [box|]; [|simpl; tauto].
    unfold arrange_pyramid, mapi, slice.
    destruct items as [|a [|b [|c rest]]]; simpl; try tauto;
      intuition (subst;
                 eauto 8 using same_item_set_geometry, in_eq, in_cons).
  - destruct (String.eqb k "medalsBelowRightPocket").
    { destruct (get slots k) as [box|]; [|simpl; tauto].
      unfold arrange_medals, mapi; simpl. intros H.
      apply in_mapi_from in H as (it & i & _ & Hin & ->).
      eauto using same_item_set_geometry. }
    destruct (String.eqb k "rightSleeveProficiency").
    { destruct (get slots k) as [box|]; [|simpl; tauto].
      unfold arrange_stack, mapi; simpl. intros H.
      apply in_mapi_from in H as (it & i & _ & Hin & ->).
      eauto using same_item_set_geometry. }
    unfold arrange_single; simpl. destruct items as [|a rest]; simpl; [tauto|].
    intros [<-|[]]. eauto using same_item_refl, in_eq.
Qed.

Lemma placed_by_slot (ids : list string) (e : string * list Placed.t)
    (p : Placed.t) :
  In e (Object_entries (groupBySlot slots badges ids)) ->
  In p (placed_by slots e) -> Placed.slot p = fst e.
Proof.
  intros He Hp. destruct e as [k items].
  eapply Permutation_in in He; [|apply Object_entries_perm].
  apply groupBySlot_In in He as [-> _].
  apply arrange_same_item in Hp as (it & Hin & Hsame).
  destruct Hsame as (_ & _ & -> & _). simpl in *.
  eapply routed_slot; eauto.
Qed.

Lemma get_entries (ids : list string) (k : string) :
  get (Object_entries (groupBySlot slots badges ids)) k
  = match routed slots badges k ids with
    | [] => None
    | items => Some items
    end.
Proof.
  rewrite <- get_groupBySlot. symmetry. apply get_perm.
  - apply groupBySlot_NoDup.
  - apply Permutation_sym, Object_entries_perm.
Qed.

Lemma entries_NoDup (ids : list string) :
  NoDup (map fst (Object_entries (groupBySlot slots badges ids))).
Proof.
  eapply Permutation_NoDup; [|apply groupBySlot_NoDup].
  apply Permutation_map, Permutation_sym, Object_entries_perm.
Qed.

(** The placements of a slot are those its arrangement rule makes of the
    items routed to it. *)
Lemma placements_of_layout (ids : list string) (k : string) :
  placements_of k (layout (computeLayout slots badges ids))
  = fst (arrange slots k (routed slots badges k ids)).
Proof.
  rewrite computeLayout_layout, filter_flat_map_keyed.
  - rewrite get_entries.
    destruct (routed slots badges k ids) eqn:E; [|reflexivity].
    now rewrite arrange_nil.
  - apply entries_NoDup.
  - intros e p. apply placed_by_slot.
Qed.

(** The warnings are those the arrangement rules give for the items
    routed to some slot. *)
Lemma warnings_In (ids : list string) (w : string) :
  In w (warnings (computeLayout slots badges ids)) <->
  exists k, In w (snd (arrange slots k (routed slots badges k ids))).
Proof.
  rewrite computeLayout_warnings, in_flat_map. split.
  - intros ([k items] & He & Hw). exists k.
    eapply Permutation_in in He; [|apply Object_entries_perm].
    apply groupBySlot_In in He as [-> _]. exact Hw.
  - intros (k & Hw).
    destruct (routed slots badges k ids) as [|e l] eqn:E.
    + rewrite arrange_nil in Hw. destruct Hw.
    + exists (k, routed slots badges k ids). split.
      * eapply Permutation_in; [apply Permutation_sym, Object_entries_perm|].
        apply groupBySlot_In. split; [reflexivity | congruence].
      * unfold warned_by; simpl. now rewrite E.
Qed.

Lemma routed_box (ids : list string) (k : string) :
  routed slots badges k ids <> [] -> exists box, get slots k = Some box.
Proof.
  intros Hne. apply (groupBySlot_box slots badges ids k (routed slots badges k ids)).
  apply groupBySlot_In. auto.
Qed.

End Arrangement.

(** ** Rounding to the nearest double *)

Lemma rne_comp (y y' : Q) : y == y' -> rne y = rne y'.
Proof.
  intros H. unfold rne. rewrite (Qfloor_comp _ _ H).
  assert (E : y - inject_Z (Qfloor y') == y' - inject_Z (Qfloor y'))
    by now rewrite H.
  now rewrite (Qcompare_comp _ _ E _ _ (Qeq_refl (1 # 2))).
Qed.

Lemma rne_floor (y : Q) : (Qfloor y <= rne y <= Qfloor y + 1)%Z.
Proof.
  unfold rne. destruct (_ ?= _)%Q; [destruct (Z.even _)| |]; lia.
Qed.

Lemma rne_near (y : Q) : y - (1 # 2) <= inject_Z (rne y) <= y + (1 # 2).
Proof.
  unfold rne.
  pose proof (Qfloor_le y) as Hlo. pose proof (Qlt_floor y) as Hhi.
  rewrite inject_Z_plus in Hhi. change (inject_Z 1) with 1 in Hhi.
  destruct (Qcompare_spec (y - inject_Z (Qfloor y)) (1 # 2)) as [E|E|E].
  - destruct (Z.even (Qfloor y)); [|rewrite inject_Z_plus;
                                     change (inject_Z 1) with 1]; lra.
  - lra.
  - rewrite inject_Z_plus. change (inject_Z 1) with 1. lra.
Qed.

Lemma rne_mono (y y' : Q) : y <= y' -> (rne y <= rne y')%Z.
Proof.
  intros H. pose proof (Qfloor_resp_le _ _ H) as Hf.
  destruct (Z.eq_dec (Qfloor y) (Qfloor y')) as [E|E].
  - unfold rne. rewrite <- E.
    destruct (Qcompare_spec (y - inject_Z (Qfloor y)) (1 # 2)) as [E1|E1|E1];
    destruct (Qcompare_spec (y' - inject_Z (Qfloor y)) (1 # 2)) as [E2|E2|E2];
      try destruct (Z.even (Qfloor y)); try lia; exfalso; lra.
  - pose proof (rne_floor y). pose proof (rne_floor y'). lia.
Qed.

Lemma rne_Z (n : Z) : rne (inject_Z n) = n.
Proof.
  unfold rne. rewrite Qfloor_Z.
  destruct (Qcompare_spec (inject_Z n - inject_Z n) (1 # 2)) as [E|E|E];
    [exfalso; lra | reflexivity | exfalso; lra].
Qed.

(** powers of two *)
Lemma pow2_pos (k : Z) : 0 < 2 ^ k.
Proof. now apply Qpower_0_lt. Qed.

Lemma pow2_plus (a b : Z) : 2 ^ (a + b) == 2 ^ a * 2 ^ b.
Proof. now apply Qpower_plus. Qed.

Lemma pow2_le (a b : Z) : (a <= b)%Z -> 2 ^ a <= 2 ^ b.
Proof. intros H. apply Qpower_le_compat_l; [exact H | discriminate]. Qed.

Lemma pow2_lt (a b : Z) : (a < b)%Z -> 2 ^ a < 2 ^ b.
Proof. intros H. apply Qpower_lt_compat_l; [exact H | reflexivity]. Qed.

Lemma pow2_Z (n : Z) : (0 <= n)%Z -> 2 ^ n == inject_Z (2 ^ n).
Proof. intros H. now rewrite Zpower_Qpower. Qed.

Lemma pow2_succ (a : Z) : 2 ^ (a + 1) == 2 * 2 ^ a.
Proof. rewrite pow2_plus. change (2 ^ 1) with 2. ring. Qed.

(** binade *)
Lemma frac_pow2 (n d : Z) (a b : Z) :
  (0 < d)%Z -> (0 <= a)%Z -> (0 <= b)%Z ->
  (2 ^ a * d <= n * 2 ^ b)%Z ->
  2 ^ (a - b) <= inject_Z n / inject_Z d.
Proof.
  intros Hd Ha Hb H.
  rewrite Qpower_minus by discriminate. rewrite !pow2_Z by assumption.
  assert (Hb' : (0 < 2 ^ b)%Z) by (apply Z.pow_pos_nonneg; lia).
  apply Qle_shift_div_l; [change 0 with (inject_Z 0); now rewrite <- Zlt_Qlt|].
  unfold Qdiv. rewrite Qmult_comm, Qmult_assoc.
  apply Qle_shift_div_r;
    [change 0 with (inject_Z 0); now rewrite <- Zlt_Qlt|].
  rewrite <- !inject_Z_mult, <- Zle_Qle. lia.
Qed.

Lemma frac_pow2_lt (n d : Z) (a b : Z) :
  (0 < d)%Z -> (0 <= a)%Z -> (0 <= b)%Z ->
  (n * 2 ^ b < 2 ^ a * d)%Z ->
  inject_Z n / inject_Z d < 2 ^ (a - b).
Proof.
  intros Hd Ha Hb H.
  rewrite Qpower_minus by discriminate. rewrite !pow2_Z by assumption.
  assert (Hb' : (0 < 2 ^ b)%Z) by (apply Z.pow_pos_nonneg; lia).
  apply Qlt_shift_div_r; [change 0 with (inject_Z 0); now rewrite <- Zlt_Qlt|].
  unfold Qdiv. rewrite <- Qmult_assoc, (Qmult_comm (/ _)), Qmult_assoc.
  apply Qlt_shift_div_l;
    [change 0 with (inject_Z 0); now rewrite <- Zlt_Qlt|].
  rewrite <- !inject_Z_mult, <- Zlt_Qlt. lia.
Qed.

Lemma binade_spec (q : Q) :
  ~ q == 0 -> 2 ^ binade q <= Qabs q /\ Qabs q < 2 ^ (binade q + 1).
Proof.
  intros Hq. unfold binade.
  set (n := Z.abs (Qnum q)). set (d := Zpos (Qden q)).
  assert (Hn : (0 < n)%Z).
  { subst n. destruct q as [[|p|p] dq]; simpl; try lia.
    exfalso. apply Hq. reflexivity. }
  assert (Habs : Qabs q == inject_Z n / inject_Z d).
  { subst n d. destruct q as [qn qd]. unfold Qabs. simpl.
    apply Qmake_Qdiv. }
  pose proof (Z.log2_spec n Hn) as [Hn1 Hn2].
  pose proof (Z.log2_spec d ltac:(subst d; lia)) as [Hd1 Hd2].
  pose proof (Z.log2_nonneg n) as Hln. pose proof (Z.log2_nonneg d) as Hld.
  set (ln := Z.log2 n) in *. set (ld := Z.log2 d) in *.
  assert (Hpd : (0 < 2 ^ ld)%Z) by (apply Z.pow_pos_nonneg; lia).
  assert (Hpn : (0 < 2 ^ ln)%Z) by (apply Z.pow_pos_nonneg; lia).
  assert (F1 : Qabs q < 2 ^ (ln - ld + 1)).
  { rewrite Habs. replace (ln - ld + 1)%Z with (Z.succ ln - ld)%Z by lia.
    apply frac_pow2_lt; try lia. subst d. nia. }
  assert (F2 : 2 ^ (ln - ld - 1) <= Qabs q).
  { rewrite Habs. replace (ln - ld - 1)%Z with (ln - Z.succ ld)%Z by lia.
    apply frac_pow2; try lia. subst d. nia. }
  destruct (Qle_bool (2 ^ (ln - ld)) (Qabs q)) eqn:E.
  - apply Qle_bool_iff in E. split; assumption.
  - split; [exact F2|].
    replace (ln - ld - 1 + 1)%Z with (ln - ld)%Z by lia.
    apply Qnot_le_lt. intros H. apply Qle_bool_iff in H. congruence.
Qed.

Lemma binade_unique (q : Q) (e : Z) :
  2 ^ e <= Qabs q -> Qabs q < 2 ^ (e + 1) -> binade q = e.
Proof.
  intros H1 H2.
  assert (Hq : ~ q == 0).
  { intros E. rewrite E in H1. pose proof (pow2_pos e). simpl in H1.
    apply (Qlt_not_le _ _ H). exact H1. }
  destruct (binade_spec q Hq) as [B1 B2].
  assert (L1 : (e < binade q + 1)%Z).
  { apply (Qpower_lt_compat_l_inv 2); [|reflexivity].
    eapply Qle_lt_trans; eauto. }
  assert (L2 : (binade q < e + 1)%Z).
  { apply (Qpower_lt_compat_l_inv 2); [|reflexivity].
    eapply Qle_lt_trans; eauto. }
  lia.
Qed.

Lemma binade_comp (q q' : Q) : ~ q == 0 -> q == q' -> binade q = binade q'.
Proof.
  intros Hq H. symmetry. destruct (binade_spec q Hq) as [B1 B2].
  apply binade_unique; rewrite <- H; assumption.
Qed.

Lemma binade_mono (q q' : Q) :
  ~ q == 0 -> Qabs q <= Qabs q' -> (binade q <= binade q')%Z.
Proof.
  intros Hq H.
  assert (Hq' : ~ q' == 0).
  { intros E. rewrite E in H. simpl in H.
    apply Hq. revert H. apply Qabs_case; intros; lra. }
  destruct (binade_spec q Hq) as [B1 _].
  destruct (binade_spec q' Hq') as [_ B2'].
  assert (L : (binade q < binade q' + 1)%Z).
  { apply (Qpower_lt_compat_l_inv 2); [|reflexivity].
    eapply Qle_lt_trans; [exact B1|]. eapply Qle_lt_trans; eauto. }
  lia.
Qed.

(** round53 *)
Lemma round53_wd (q q' : Q) : q == q' -> round53 q == round53 q'.
Proof.
  intros H. unfold round53.
  destruct (Qeq_bool q 0) eqn:E.
  - apply Qeq_bool_iff in E.
    assert (E2 : q' == 0) by (rewrite <- H; exact E).
    apply Qeq_bool_iff in E2. rewrite E2. reflexivity.
  - assert (Hq : ~ q == 0) by (intros E'; apply Qeq_bool_iff in E'; congruence).
    assert (Hq' : ~ q' == 0) by now rewrite <- H.
    destruct (Qeq_bool q' 0) eqn:E'; [apply Qeq_bool_iff in E'; contradiction|].
    rewrite <- (binade_comp q q' Hq H).
    rewrite (rne_comp (q / 2 ^ (binade q - 52)) (q' / 2 ^ (binade q - 52)));
      [reflexivity | apply Qdiv_comp; [exact H | reflexivity]].
Qed.

#[global] Instance round53_comp : Proper (Qeq ==> Qeq) round53.
Proof. intros q q' H. now apply round53_wd. Qed.

(** the scaled mantissa of a positive number lies in [2^52, 2^53) *)
Lemma mantissa_pos (x : Q) :
  0 < x ->
  2 ^ 52 <= x / 2 ^ (binade x - 52) /\ x / 2 ^ (binade x - 52) < 2 ^ 53.
Proof.
  intros Hx.
  assert (Hne : ~ x == 0) by (intros E; rewrite E in Hx; discriminate).
  destruct (binade_spec x Hne) as [B1 B2].
  rewrite Qabs_pos in B1, B2 by now apply Qlt_le_weak.
  pose proof (pow2_pos (binade x - 52)) as Hc.
  split.
  - apply Qle_shift_div_l; [exact Hc|].
    rewrite <- pow2_plus. now replace (52 + (binade x - 52))%Z with (binade x) by lia.
  - apply Qlt_shift_div_r; [exact Hc|].
    rewrite <- pow2_plus.
    now replace (53 + (binade x - 52))%Z with (binade x + 1)%Z by lia.
Qed.

Lemma round53_pos_range (x : Q) :
  0 < x -> 2 ^ binade x <= round53 x /\ round53 x <= 2 ^ (binade x + 1).
Proof.
  intros Hx.
  assert (Hne : ~ x == 0) by (intros E; rewrite E in Hx; discriminate).
  unfold round53. destruct (Qeq_bool x 0) eqn:E;
    [apply Qeq_bool_iff in E; contradiction|].
  destruct (mantissa_pos x Hx) as [M1 M2].
  pose proof (pow2_pos (binade x - 52)) as Hc.
  assert (R1 : (2 ^ 52 <= rne (x / 2 ^ (binade x - 52)))%Z).
  { rewrite <- (rne_Z (2 ^ 52)). apply rne_mono.
    now rewrite <- pow2_Z by lia. }
  assert (R2 : (rne (x / 2 ^ (binade x - 52)) <= 2 ^ 53)%Z).
  { rewrite <- (rne_Z (2 ^ 53)). apply rne_mono.
    rewrite <- pow2_Z by lia. now apply Qlt_le_weak. }
  rewrite Zle_Qle, <- pow2_Z in R1, R2 by lia.
  split.
  - replace (binade x) with (52 + (binade x - 52))%Z at 1 by lia.
    rewrite pow2_plus. now apply Qmult_le_compat_r; [|apply Qlt_le_weak].
  - replace (binade x + 1)%Z with (53 + (binade x - 52))%Z by lia.
    rewrite pow2_plus. now apply Qmult_le_compat_r; [|apply Qlt_le_weak].
Qed.

Lemma mantissa_neg (x : Q) :
  x < 0 ->
  - 2 ^ 53 < x / 2 ^ (binade x - 52) /\ x / 2 ^ (binade x - 52) <= - 2 ^ 52.
Proof.
  intros Hx.
  assert (Hne : ~ x == 0) by (intros E; rewrite E in Hx; discriminate).
  destruct (binade_spec x Hne) as [B1 B2].
  rewrite Qabs_neg in B1, B2 by now apply Qlt_le_weak.
  pose proof (pow2_pos (binade x - 52)) as Hc.
  assert (E1 : 2 ^ binade x == 2 ^ 52 * 2 ^ (binade x - 52)).
  { rewrite <- pow2_plus.
    now replace (52 + (binade x - 52))%Z with (binade x) by lia. }
  assert (E2 : 2 ^ (binade x + 1) == 2 ^ 53 * 2 ^ (binade x - 52)).
  { rewrite <- pow2_plus.
    now replace (53 + (binade x - 52))%Z with (binade x + 1)%Z by lia. }
  split.
  - apply Qlt_shift_div_l; [exact Hc|]. lra.
  - apply Qle_shift_div_r; [exact Hc|]. lra.
Qed.

Lemma round53_neg_range (x : Q) :
  x < 0 ->
  - 2 ^ (binade x + 1) <= round53 x /\ round53 x <= - 2 ^ binade x.
Proof.
  intros Hx.
  assert (Hne : ~ x == 0) by (intros E; rewrite E in Hx; discriminate).
  unfold round53. destruct (Qeq_bool x 0) eqn:E;
    [apply Qeq_bool_iff in E; contradiction|].
  destruct (mantissa_neg x Hx) as [M1 M2].
  pose proof (pow2_pos (binade x - 52)) as Hc.
  assert (R1 : (- 2 ^ 53 <= rne (x / 2 ^ (binade x - 52)))%Z).
  { rewrite <- (rne_Z (- 2 ^ 53)). apply rne_mono.
    rewrite inject_Z_opp, <- pow2_Z by lia. now apply Qlt_le_weak. }
  assert (R2 : (rne (x / 2 ^ (binade x - 52)) <= - 2 ^ 52)%Z).
  { rewrite <- (rne_Z (- 2 ^ 52)). apply rne_mono.
    now rewrite inject_Z_opp, <- pow2_Z by lia. }
  rewrite Zle_Qle, inject_Z_opp, <- pow2_Z in R1, R2 by lia.
  assert (E1 : 2 ^ binade x == 2 ^ 52 * 2 ^ (binade x - 52)).
  { rewrite <- pow2_plus.
    now replace (52 + (binade x - 52))%Z with (binade x) by lia. }
  assert (E2 : 2 ^ (binade x + 1) == 2 ^ 53 * 2 ^ (binade x - 52)).
  { rewrite <- pow2_plus.
    now replace (53 + (binade x - 52))%Z with (binade x + 1)%Z by lia. }
  split.
  - rewrite E2.
    apply (Qmult_le_compat_r _ _ (2 ^ (binade x - 52))) in R1;
      [|now apply Qlt_le_weak]. lra.
  - rewrite E1.
    apply (Qmult_le_compat_r _ _ (2 ^ (binade x - 52))) in R2;
      [|now apply Qlt_le_weak]. lra.
Qed.

Lemma round53_0 (x : Q) : x == 0 -> round53 x == 0.
Proof.
  intros H. unfold round53. apply Qeq_bool_iff in H. now rewrite H.
Qed.

Lemma round53_nonneg (x : Q) : 0 <= x -> 0 <= round53 x.
Proof.
  intros H. apply Qle_lteq in H as [H|H].
  - destruct (round53_pos_range x H) as [R _].
    eapply Qle_trans; [apply Qlt_le_weak, (pow2_pos (binade x)) | exact R].
  - rewrite round53_0 by now symmetry. apply Qle_refl.
Qed.

Lemma round53_nonpos (x : Q) : x <= 0 -> round53 x <= 0.
Proof.
  intros H. apply Qle_lteq in H as [H|H].
  - destruct (round53_neg_range x H) as [_ R].
    pose proof (pow2_pos (binade x)). lra.
  - rewrite round53_0 by exact H. apply Qle_refl.
Qed.

Lemma round53_same_binade (x y : Q) :
  ~ x == 0 -> ~ y == 0 -> binade x = binade y -> x <= y ->
  round53 x <= round53 y.
Proof.
  intros Hx Hy Hb Hxy. unfold round53.
  destruct (Qeq_bool x 0) eqn:Ex; [apply Qeq_bool_iff in Ex; contradiction|].
  destruct (Qeq_bool y 0) eqn:Ey; [apply Qeq_bool_iff in Ey; contradiction|].
  rewrite <- Hb. pose proof (pow2_pos (binade x - 52)) as Hc.
  apply Qmult_le_compat_r; [|now apply Qlt_le_weak].
  rewrite <- Zle_Qle. apply rne_mono.
  apply Qmult_le_compat_r; [exact Hxy|].
  now apply Qlt_le_weak, Qinv_lt_0_compat.
Qed.

Theorem round53_mono (x y : Q) : x <= y -> round53 x <= round53 y.
Proof.
  intros Hxy.
  destruct (Qlt_le_dec 0 x) as [Hx|Hx].
  - (* 0 < x <= y *)
    assert (Hy : 0 < y) by lra.
    assert (Hnx : ~ x == 0) by (intros E; rewrite E in Hx; discriminate).
    assert (Hny : ~ y == 0) by (intros E; rewrite E in Hy; discriminate).
    assert (Hb : (binade x <= binade y)%Z).
    { apply binade_mono; [exact Hnx|].
      rewrite !Qabs_pos by now apply Qlt_le_weak. exact Hxy. }
    destruct (Z.eq_dec (binade x) (binade y)) as [E|E].
    + now apply round53_same_binade.
    + destruct (round53_pos_range x Hx) as [_ R1].
      destruct (round53_pos_range y Hy) as [R2 _].
      eapply Qle_trans; [exact R1|]. eapply Qle_trans; [|exact R2].
      apply pow2_le. lia.
  - destruct (Qlt_le_dec y 0) as [Hy|Hy].
    + (* x <= y < 0 *)
      assert (Hx' : x < 0) by lra.
      assert (Hnx : ~ x == 0) by (intros E; rewrite E in Hx'; discriminate).
      assert (Hny : ~ y == 0) by (intros E; rewrite E in Hy; discriminate).
      assert (Hb : (binade y <= binade x)%Z).
      { apply binade_mono; [exact Hny|].
        rewrite !Qabs_neg by now apply Qlt_le_weak. lra. }
      destruct (Z.eq_dec (binade x) (binade y)) as [E|E].
      * now apply round53_same_binade.
      * destruct (round53_neg_range x Hx') as [_ R1].
        destruct (round53_neg_range y Hy) as [R2 _].
        eapply Qle_trans; [exact R1|]. eapply Qle_trans; [|exact R2].
        apply Qopp_le_compat, pow2_le. lia.
    + eapply Qle_trans; [apply round53_nonpos, Hx | apply round53_nonneg, Hy].
Qed.

Lemma round53_near (x : Q) :
  0 < x ->
  x * (1 - half_ulp) <= round53 x /\ round53 x <= x * (1 + half_ulp).
Proof.
  intros Hx.
  assert (Hne : ~ x == 0) by (intros E; rewrite E in Hx; discriminate).
  destruct (mantissa_pos x Hx) as [M1 _].
  unfold round53. destruct (Qeq_bool x 0) eqn:E;
    [apply Qeq_bool_iff in E; contradiction|].
  set (c := 2 ^ (binade x - 52)) in *.
  assert (Hc : 0 < c) by apply pow2_pos.
  destruct (rne_near (x / c)) as [N1 N2].
  assert (Hxc : x / c * c == x) by (field; lra).
  assert (Hu : c <= x * (1 # 4503599627370496)).
  { apply (Qmult_le_compat_r _ _ c) in M1; [|lra].
    rewrite Hxc in M1. change (2 ^ 52) with 4503599627370496 in M1. lra. }
  apply (Qmult_le_compat_r _ _ c) in N1, N2; try lra.
  unfold half_ulp. split.
  - assert (H : (x / c - (1 # 2)) * c == x - c * (1 # 2)) by (field; lra).
    rewrite H in N1. lra.
  - assert (H : (x / c + (1 # 2)) * c == x + c * (1 # 2)) by (field; lra).
    rewrite H in N2. lra.
Qed.

(** ** Operations on doubles *)

Lemma round53_pos (x : Q) : 0 < x -> 0 < round53 x.
Proof.
  intros Hx. destruct (round53_near x Hx) as [Hlo _].
  eapply Qlt_le_trans; [|exact Hlo].
  apply Qmult_lt_0_compat; [exact Hx | reflexivity].
Qed.

Lemma round53_lt_inv (x y : Q) : round53 x < round53 y -> x < y.
Proof.
  intros H. apply Qnot_le_lt. intros Hle.
  apply round53_mono in Hle. apply (Qlt_irrefl (round53 x)).
  eapply Qlt_le_trans; eassumption.
Qed.

Lemma fmul_comm (x y : Q) : fmul x y == fmul y x.
Proof. unfold fmul. apply round53_wd, Qmult_comm. Qed.

Lemma fmul_mono_l (x y r : Q) : 0 <= r -> x <= y -> fmul x r <= fmul y r.
Proof. intros Hr H. apply round53_mono. now apply Qmult_le_compat_r. Qed.

Lemma fsub_mono_l (x y p : Q) : x <= y -> fsub x p <= fsub y p.
Proof. intros H. apply round53_mono. lra. Qed.

Lemma fdiv_mono_l (x y m : Q) : 0 < m -> x <= y -> fdiv x m <= fdiv y m.
Proof.
  intros Hm H. apply round53_mono. unfold Qdiv.
  apply Qmult_le_compat_r; [exact H|].
  now apply Qlt_le_weak, Qinv_lt_0_compat.
Qed.

Lemma fmul_pos_inv (x y : Q) : 0 < fmul x y -> 0 < x * y.
Proof.
  intros H. apply round53_lt_inv. unfold fmul in H.
  eapply Qle_lt_trans; [|exact H].
  apply Qle_lteq. right. apply round53_0. reflexivity.
Qed.

(** The constants of the code: [100 * 0.6] is 60, and the default ratio
    [0.7] is not negative. *)
Lemma base_times_06 : fmul 100 (round53 0.6) == 60.
Proof. vm_compute. reflexivity. Qed.

Lemma default_ratio_nonneg : 0 <= round53 0.7.
Proof. apply round53_nonneg. discriminate. Qed.

Lemma default_ratio_le : round53 0.7 <= 0.7.
Proof. vm_compute. discriminate. Qed.

Lemma ratio_nonneg (opts : option FitOpts.t) :
  0 <= opt_or opts FitOpts.maxHeightRatio 0.7%Q ->
  0 <= opt_or opts FitOpts.maxHeightRatio (round53 0.7).
Proof.
  destruct opts as [o|]; simpl; [|intros _; apply default_ratio_nonneg].
  destruct (FitOpts.maxHeightRatio o); [trivial|].
  intros _. apply default_ratio_nonneg.
Qed.

(** ** Length of a string *)

Lemma utf16_units_ascii (c : ascii) :
  (N_of_ascii c < 128)%N -> utf16_units c = 1%nat.
Proof.
  intros H. unfold utf16_units. apply N.ltb_lt in H. now rewrite H.
Qed.

Lemma js_length_le (s : string) : (js_length s <= 2 * String.length s)%nat.
Proof.
  induction s as [|c s IH]; simpl; [lia|].
  assert (utf16_units c <= 2)%nat.
  { unfold utf16_units.
    destruct (N_of_ascii c <? 128)%N; [lia|].
    destruct (N_of_ascii c <? 192)%N; [lia|].
    destruct (N_of_ascii c <? 240)%N; lia. }
  lia.
Qed.

(** ** The text-fit estimator *)

Lemma Qfloor_max10 (m : Q) : Qfloor (Qmax 10 m) = Z.max 10 (Qfloor m).
Proof.
  destruct (Q.max_spec 10 m) as [[Hlt Heq]|[Hle Heq]];
    rewrite (Qfloor_comp _ _ Heq).
  - apply Qlt_le_weak, Qfloor_resp_le in Hlt. change (Qfloor 10) with 10%Z in Hlt.
    lia.
  - apply Qfloor_resp_le in Hle. change (Qfloor 10) with 10%Z in *. lia.
Qed.

Lemma min_fin_le (a : Q) (b : xnum) : min_fin a b <= a.
Proof. destruct b; simpl; [apply Q.le_min_l | apply Qle_refl]. Qed.

Lemma width_bound_compat (a a' m : Q) (hb : Q) :
  a == a' ->
  min_fin hb (xmul (div_pos a m) 100) == min_fin hb (xmul (div_pos a' m) 100).
Proof.
  intros Ha. unfold div_pos. destruct (Qeq_bool m 0); simpl; [reflexivity|].
  apply Q.min_compat; [reflexivity|]. unfold fmul, fdiv.
  apply round53_wd, Qmult_comp; [|reflexivity].
  apply round53_wd. now rewrite Ha.
Qed.

Lemma fallback_estimate_pos (n : nat) :
  n <> 0%nat -> 0 < fmul (fmul 100 (round53 0.6)) (of_nat n).
Proof.
  intros Hn. unfold fmul at 1. apply round53_pos.
  apply Qmult_lt_0_compat.
  - rewrite base_times_06. reflexivity.
  - unfold of_nat, Qlt. simpl. lia.
Qed.

(** C2 (as amended).  With a measuring context at hand, the size returned
    by [fitFontSize] is at least 10 and at most the height bound
    [max(10, boxH * maxHeightRatio)] rounded down, the product being the
    product of doubles; it is the value
    [floor(max(10, min(heightBoundSize, widthBoundSize)))] of the
    specification; as soon as the product is at least 10 the size stays
    below the product rounded down, and so below the exact product
    enlarged by one part in [2^53]. *)
Theorem fitFontSize_bounds (measureText : MeasureCtx) (label : string)
    (boxW boxH : Q) (opts : option FitOpts.t) :
  (10 <= fitFontSize (Some measureText) label boxW boxH opts)%Z /\
  (fitFontSize (Some measureText) label boxW boxH opts
   <= Qfloor
        (Qmax 10
           (fmul boxH (opt_or opts FitOpts.maxHeightRatio (round53 0.7)))))%Z /\
  fitFontSize (Some measureText) label boxW boxH opts
  = fitFontSize_spec
      (measured_width measureText
         (opt_or opts FitOpts.weight "600" ++ " 100px "
          ++ opt_or opts FitOpts.family "Inter, Arial, sans-serif")%string
         label)
      boxW boxH (opt_or opts FitOpts.padding 8%Q)
      (opt_or opts FitOpts.maxHeightRatio (round53 0.7)) /\
  (10 <= fmul boxH (opt_or opts FitOpts.maxHeightRatio (round53 0.7)) ->
   (fitFontSize (Some measureText) label boxW boxH opts
    <= Qfloor
         (fmul boxH (opt_or opts FitOpts.maxHeightRatio (round53 0.7))))%Z /\
   inject_Z (fitFontSize (Some measureText) label boxW boxH opts)
   <= boxH * opt_or opts FitOpts.maxHeightRatio (round53 0.7)
      * (1 + half_ulp)).
Proof.
  unfold fitFontSize, fitFontSize_spec.
  set (ratio := opt_or opts FitOpts.maxHeightRatio (round53 0.7)).
  set (pad := opt_or opts FitOpts.padding 8%Q).
  set (m := measured_width _ _ _).
  set (hb := Qmax 10 (fmul boxH ratio)).
  set (fw := xmul (div_pos (Qmax 10 (fsub boxW (fmul pad 2))) m) 100).
  assert (Hhb : (10 <= Qfloor hb)%Z).
  { change 10%Z with (Qfloor 10). apply Qfloor_resp_le, Q.le_max_l. }
  assert (Hmin : (Qfloor (min_fin hb fw) <= Qfloor hb)%Z)
    by apply Qfloor_resp_le, min_fin_le.
  assert (Hbig : 10 <= fmul boxH ratio ->
                 (Z.max 10 (Qfloor (min_fin hb fw))
                  <= Qfloor (fmul boxH ratio))%Z).
  { intros Hbig.
    assert (Heq : hb == fmul boxH ratio) by now apply Q.max_r.
    rewrite <- (Qfloor_comp _ _ Heq). lia. }
  split; [lia|]. split; [lia|]. split; [|split].
  - rewrite Qfloor_max10. f_equal. apply Qfloor_comp.
    apply width_bound_compat, Q.max_compat; [reflexivity|].
    unfold fsub. apply round53_wd. unfold Qminus.
    apply Qplus_comp; [reflexivity|]. apply Qopp_comp, fmul_comm.
  - now apply Hbig.
  - assert (Hpos : 0 < boxH * ratio).
    { apply fmul_pos_inv. eapply Qlt_le_trans; [|eassumption]. reflexivity. }
    destruct (round53_near _ Hpos) as [_ Hup].
    eapply Qle_trans; [|exact Hup].
    eapply Qle_trans; [|apply (Qfloor_le (fmul boxH ratio))].
    rewrite <- Zle_Qle. now apply Hbig.
Qed.

(** C2, the claim as written fails: for a box 10 units high the default
    ratio gives [floor(10 * 0.7) = 7], and the size returned is 10. *)
Lemma fitFontSize_exceeds_small_box :
  "A" <> "" /\ 0 < 100 /\ 0 < 10 /\
  fitFontSize (Some Samples.fixed_pitch) "A" 100 10 None = 10%Z /\
  Qfloor (fmul 10 (round53 0.7)) = 7%Z /\
  Qfloor (10 * 0.7) = 7%Z /\
  ~ (fitFontSize (Some Samples.fixed_pitch) "A" 100 10 None
     <= Qfloor (fmul 10 (round53 0.7)))%Z.
Proof.
  split; [discriminate|]. split; [reflexivity|]. split; [reflexivity|].
  split; [vm_compute; reflexivity|]. split; [vm_compute; reflexivity|].
  split; [vm_compute; reflexivity|].
  vm_compute. intros H. apply H. reflexivity.
Qed.

(** The products are products of doubles.  For a box 90 units high the
    size is 62, one below the floor of [90 * 0.7] at the decimal value of
    the ratio; for a box of height 27.142857142857142 it is 19, one above
    the floor of the exact product of the box height and the ratio. *)
Example fitFontSize_rounded_down :
  fitFontSize (Some Samples.fixed_pitch) "A" 1000 90 None = 62%Z /\
  Qfloor (90 * 0.7) = 63%Z.
Proof. split; vm_compute; reflexivity. Qed.

Example fitFontSize_rounded_up :
  fitFontSize (Some Samples.fixed_pitch) "A" 1000
    (round53 27.142857142857142) None = 19%Z /\
  Qfloor (round53 27.142857142857142 * round53 0.7) = 18%Z.
Proof. split; vm_compute; reflexivity. Qed.

(** C10.  [fitFontSize] is a total function of its arguments.  When the
    context measures a width of 0 the estimate [100 * 0.6 * label.length]
    takes its place: for a label of positive length the estimate is
    positive and the width bound is the quotient by it; for the empty
    label the estimate is 0 as well, the width bound is infinite, and the
    size is [floor(max(10, boxH * maxHeightRatio))]. *)
Theorem fitFontSize_zero_width (measureText : MeasureCtx) (label : string)
    (boxW boxH : Q) (opts : option FitOpts.t) :
  measureText
    (opt_or opts FitOpts.weight "600" ++ " 100px "
     ++ opt_or opts FitOpts.family "Inter, Arial, sans-serif")%string
    label == 0 ->
  measured_width measureText
    (opt_or opts FitOpts.weight "600" ++ " 100px "
     ++ opt_or opts FitOpts.family "Inter, Arial, sans-serif")%string
    label
  = fmul (fmul 100 (round53 0.6)) (of_nat (js_length label)) /\
  (js_length label <> 0%nat ->
   fitFontSize (Some measureText) label boxW boxH opts
   = Z.max 10
       (Qfloor
          (Qmin
             (Qmax 10
                (fmul boxH
                   (opt_or opts FitOpts.maxHeightRatio (round53 0.7))))
             (fmul
                (fdiv
                   (Qmax 10
                      (fsub boxW (fmul (opt_or opts FitOpts.padding 8%Q) 2)))
                   (fmul (fmul 100 (round53 0.6))
                      (of_nat (js_length label))))
                100)))) /\
  (js_length label = 0%nat ->
   fitFontSize (Some measureText) label boxW boxH opts
   = Qfloor
       (Qmax 10
          (fmul boxH (opt_or opts FitOpts.maxHeightRatio (round53 0.7))))).
Proof.
  intros Hzero. unfold fitFontSize, measured_width.
  apply Qeq_bool_iff in Hzero. rewrite Hzero.
  split; [reflexivity|]. split.
  - intros Hne. unfold div_pos.
    destruct (Qeq_bool (fmul (fmul 100 (round53 0.6))
                          (of_nat (js_length label))) 0) eqn:E;
      [|reflexivity].
    exfalso. apply Qeq_bool_iff in E.
    pose proof (fallback_estimate_pos _ Hne) as Hpos.
    rewrite E in Hpos. discriminate Hpos.
  - intros ->.
    change (Qeq_bool (fmul (fmul 100 (round53 0.6)) (of_nat 0)) 0) with true.
    cbn [div_pos xmul min_fin].
    pose proof (Qfloor_resp_le _ _
                  (Q.le_max_l 10
                     (fmul boxH
                        (opt_or opts FitOpts.maxHeightRatio (round53 0.7)))))
      as Hhb.
    change (Qfloor 10) with 10%Z in Hhb.
    unfold div_pos.
    change (Qeq_bool (fmul (fmul 100 (round53 0.6)) (of_nat 0)) 0) with true.
    cbn [xmul min_fin]. lia.
Qed.

Lemma fitFontSize_zero_width_witness :
  js_length "" = 0%nat /\
  fitFontSize (Some Samples.blind) "" 100 90 None
  = Qfloor (Qmax 10 (fmul 90 (opt_or None FitOpts.maxHeightRatio
                                (round53 0.7)))).
Proof.
  split; [reflexivity|].
  apply (fitFontSize_zero_width Samples.blind "" 100 90 None);
    reflexivity.
Defined.

(** The empty label in a box 90 units high: the size is 62. *)
Example fitFontSize_empty_label :
  fitFontSize (Some Samples.blind) "" 100 90 None = 62%Z.
Proof. vm_compute. reflexivity. Qed.

(** A label outside the Latin alphabet: its length is counted in UTF-16
    code units (one for a character of three bytes, two for one of
    four). *)
Example js_length_sample :
  js_length "3SG" = 3%nat /\
  js_length (String (ascii_of_nat 228) (String (ascii_of_nat 184)
               (String (ascii_of_nat 173) ""))) = 1%nat /\
  js_length (String (ascii_of_nat 240) (String (ascii_of_nat 159)
               (String (ascii_of_nat 142) (String (ascii_of_nat 150) ""))))
  = 2%nat.
Proof. repeat split. Qed.

(** ** The arrangement rules, slot by slot *)

Section Rules.
Variable slots : table Slot.t.
Variable badges : table Badge.t.

Lemma arrange_single_eq (k : string) (items : list Placed.t) :
  is_single_slot k = true -> arrange slots k items = arrange_single k items.
Proof.
  unfold is_single_slot, is_pyramid_slot, arrange. intros H.
  apply andb_true_iff in H as [H H3]. apply andb_true_iff in H as [H1 H2].
  apply negb_true_iff in H1, H2, H3. now rewrite H1, H2, H3.
Qed.

Lemma arrange_pyramid_eq (k : string) (box : Slot.t) (items : list Placed.t) :
  is_pyramid_slot k = true -> get slots k = Some box ->
  arrange slots k items = arrange_pyramid k box items.
Proof.
  unfold is_pyramid_slot, arrange. intros -> ->. reflexivity.
Qed.

Lemma arrange_medals_eq (box : Slot.t) (items : list Placed.t) :
  get slots "medalsBelowRightPocket" = Some box ->
  arrange slots "medalsBelowRightPocket" items = arrange_medals box items.
Proof. unfold arrange. intros ->. reflexivity. Qed.

Lemma arrange_stack_eq (box : Slot.t) (items : list Placed.t) :
  get slots "rightSleeveProficiency" = Some box ->
  arrange slots "rightSleeveProficiency" items = arrange_stack box items.
Proof. unfold arrange. intros ->. reflexivity. Qed.

(** The only warnings a slot can give. *)
Lemma arrange_warnings_In (k : string) (items : list Placed.t) (w : string) :
  In w (snd (arrange slots k items)) ->
  (is_pyramid_slot k = true /\ (3 < List.length items)%nat
   /\ w = pyramid_warning k) \/
  (is_single_slot k = true /\ (1 < List.length items)%nat
   /\ w = single_warning k).
Proof.
  destruct (is_single_slot k) eqn:Hs.
  - rewrite arrange_single_eq by exact Hs. unfold arrange_single; simpl.
    destruct (Nat.ltb_spec 1 (List.length items)); simpl; [|tauto].
    intros [<-|[]]. right; auto.
  - unfold arrange. unfold is_single_slot, is_pyramid_slot in *.
    destruct (_ || _) eqn:Hp.
    + destruct (get slots k) as [box|]; simpl; [|tauto].
      destruct (Nat.ltb_spec 3 (List.length items)); simpl; [|tauto].
      intros [<-|[]]. left; auto.
    + simpl in Hs.
      destruct (String.eqb k "medalsBelowRightPocket").
      { destruct (get slots k); simpl; tauto. }
      destruct (String.eqb k "rightSleeveProficiency"); [|discriminate].
      destruct (get slots k); simpl; tauto.
Qed.


Lemma pyramid_warning_In (ids : list string) (k : string) :
  In (pyramid_warning k) (warnings (computeLayout slots badges ids)) <->
  is_pyramid_slot k = true /\ (3 < List.length (routed slots badges k ids))%nat.
Proof.
  rewrite warnings_In. split.
  - intros (k' & Hw). apply arrange_warnings_In in Hw as [(Hp&Hl&E)|(_&_&E)].
    + apply pyramid_warning_inj in E. subst k'. auto.
    + now apply warnings_differ in E.
  - intros [Hp Hl]. exists k.
    destruct (routed_box slots badges ids k) as [box Hbox].
    { intros E. rewrite E in Hl. simpl in Hl. lia. }
    rewrite (arrange_pyramid_eq _ box) by assumption.
    unfold arrange_pyramid; simpl.
    apply Nat.ltb_lt in Hl. rewrite Hl. now left.
Qed.

(** An item routed to a slot was built from its badge and from that
    slot's box. *)
Lemma routed_entry (ids : list string) (k : string) (it : Placed.t) :
  In it (routed slots badges k ids) ->
  exists spec box,
    In (Placed.id it) ids /\ get badges (Placed.id it) = Some spec /\
    Badge.slot spec = k /\ get slots k = Some box /\
    it = Placed.mk (Placed.id it) (Badge.label spec) k
           (Slot.x box) (Slot.y box) (Slot.w box) (Slot.h box) (Slot.z box)
           (Badge.color spec) (Badge.asset spec).
Proof.
  intros Hin. pose proof (routed_slot _ _ _ _ _ Hin) as Hslot.
  unfold routed in Hin. apply filter_In in Hin as [Hin _].
  apply resolved_In in Hin as [Hids He].
  destruct (make_entry_Some _ _ _ _ He) as (spec & box & Hb & Hbox & E).
  assert (Hk : Badge.slot spec = k) by (rewrite E in Hslot; exact Hslot).
  exists spec, box. rewrite <- Hk. auto.
Qed.

Lemma layout_In (ids : list string) (p : Placed.t) :
  In p (layout (computeLayout slots badges ids)) ->
  exists it, In it (routed slots badges (Placed.slot p) ids) /\ same_item p it.
Proof.
  rewrite computeLayout_layout, in_flat_map. intros ([k items] & He & Hp).
  pose proof (placed_by_slot _ _ _ _ _ He Hp) as Hslot. simpl in Hslot.
  eapply Permutation_in in He; [|apply Object_entries_perm].
  apply groupBySlot_In in He as [-> _].
  apply arrange_same_item in Hp. now rewrite Hslot.
Qed.

Lemma layout_entry (ids : list string) (p : Placed.t) :
  In p (layout (computeLayout slots badges ids)) ->
  exists spec box,
    In (Placed.id p) ids /\
    get badges (Placed.id p) = Some spec /\
    get slots (Badge.slot spec) = Some box /\
    Placed.slot p = Badge.slot spec /\
    Placed.label p = Badge.label spec /\
    Placed.color p = Badge.color spec /\
    Placed.z p = Slot.z box /\
    Placed.asset p = Badge.asset spec.
Proof.
  intros Hp.
  apply layout_In in Hp as (it & Hit & Hsame).
  apply routed_entry in Hit as (spec & box & Hin & Hb & Hslot & Hbox & Hit).
  destruct Hsame as (Hid & Hl & Hsl & Hz & Hc & Ha).
  exists spec, box. rewrite Hid, Hl, Hc, Hz, Ha, Hslot.
  rewrite Hit; simpl. auto 10.
Qed.

End Rules.





(** *** Unresolvable identifiers and the member lookup of the language *)

Lemma read_Own {V : Type} (tbl : table V) (key : string) (v : V) :
  read tbl key = Own v <-> get tbl key = Some v.
Proof.
  unfold read. destruct (get tbl key) as [v'|].
  - split; congruence.
  - destruct (inherited_member key); split; discriminate.
Qed.

Lemma read_Absent {V : Type} (tbl : table V) (key : string) :
  read tbl key = Absent
  <-> get tbl key = None /\ inherited_member key = false.
Proof.
  unfold read. destruct (get tbl key) as [v'|].
  - split; [discriminate | intros [H _]; discriminate H].
  - destruct (inherited_member key); split; try discriminate; auto.
    intros [_ H]; discriminate H.
Qed.

Lemma read_Inherited {V : Type} (tbl : table V) (key : string) :
  read tbl key = Inherited
  <-> get tbl key = None /\ inherited_member key = true.
Proof.
  unfold read. destruct (get tbl key) as [v'|].
  - split; [discriminate | intros [H _]; discriminate H].
  - destruct (inherited_member key); split; try discriminate; auto.
    intros [_ H]; discriminate H.
Qed.

Section MemberLookup.
Variable slots : table Slot.t.
Variable badges : table Badge.t.

(** One turn of the first loop throws exactly when the badge of the
    identifier names a slot that [bySlot] inherits. *)
Lemma group_step_js_throws (bySlot : bySlot_js) (id : string) :
  group_step_js slots badges bySlot id = Throws
  <-> exists spec, get badges id = Some spec
                   /\ inherited_member (Badge.slot spec) = true.
Proof.
  unfold group_step_js, read.
  destruct (get badges id) as [spec|].
  - destruct (get slots (Badge.slot spec)) as [box|];
      destruct (inherited_member (Badge.slot spec)) eqn:E; split;
      try discriminate; try (intros _; now exists spec);
      intros (spec' & [= <-] & H); congruence.
  - split; [|intros (spec & H & _); discriminate H].
    destruct (inherited_member id); [|discriminate].
    destruct (get slots "undefined"); discriminate.
Qed.

Lemma group_loop_app (bySlot : bySlot_js) (ids1 ids2 : list string) :
  group_loop slots badges bySlot (ids1 ++ ids2)
  = match group_loop slots badges bySlot ids1 with
    | Returns bySlot' => group_loop slots badges bySlot' ids2
    | Throws => Throws
    end.
Proof.
  revert bySlot. induction ids1 as [|id ids1 IH]; intros bySlot; simpl;
    [reflexivity|].
  destruct (group_step_js slots badges bySlot id); [apply IH | reflexivity].
Qed.

Lemma group_loop_throws (bySlot : bySlot_js) (ids : list string) :
  group_loop slots badges bySlot ids = Throws
  <-> exists id spec, In id ids /\ get badges id = Some spec
                      /\ inherited_member (Badge.slot spec) = true.
Proof.
  revert bySlot. induction ids as [|id ids IH]; intros bySlot; simpl.
  - split; [discriminate | intros (id & spec & [] & _)].
  - destruct (group_step_js slots badges bySlot id) as [bySlot'|] eqn:E.
    + rewrite IH. split.
      * intros (id' & spec & Hin & H). exists id', spec. auto.
      * intros (id' & spec & [<-|Hin] & Hb & Hk).
        -- assert (Hthrow : group_step_js slots badges bySlot id = Throws)
             by (apply group_step_js_throws; eauto).
           congruence.
        -- exists id', spec. auto.
    + split; [intros _|reflexivity].
      apply group_step_js_throws in E as (spec & Hb & Hk).
      exists id, spec. auto.
Qed.

(** [computeLayout] throws exactly when a selected item names a slot that
    every object inherits, whether the slot table has it or not. *)
Lemma computeLayout_js_throws (ids : list string) :
  computeLayout_js slots badges ids = Throws
  <-> exists id spec, In id ids /\ get badges id = Some spec
                      /\ inherited_member (Badge.slot spec) = true.
Proof.
  rewrite <- (group_loop_throws []). unfold computeLayout_js.
  destruct (group_loop slots badges [] ids); split; congruence.
Qed.

(** An identifier that names no member of the badge table, own or
    inherited, and an item whose slot names no member of the slot table,
    own or inherited, are passed over: the call does what it does without
    that identifier. *)
Lemma unresolvable_passed_over (ids1 : list string) (id : string)
    (ids2 : list string) :
  (read badges id = Absent \/
   exists spec, read badges id = Own spec
                /\ read slots (Badge.slot spec) = Absent) ->
  computeLayout_js slots badges (ids1 ++ id :: ids2)
  = computeLayout_js slots badges (ids1 ++ ids2).
Proof.
  intros Hid. unfold computeLayout_js. rewrite !group_loop_app.
  destruct (group_loop slots badges [] ids1) as [bySlot|]; [|reflexivity].
  simpl.
  assert (Hstep : group_step_js slots badges bySlot id = Returns bySlot).
  { unfold group_step_js.
    destruct Hid as [->|(spec & -> & ->)]; reflexivity. }
  now rewrite Hstep.
Qed.

(** **** Agreement with the typed engine *)

Lemma push_js_typed (k : string) (p : Placed.t) (bySlot : bySlot_t) :
  push_js k (Typed p) (typed_groups bySlot)
  = typed_groups (push_entry k p bySlot).
Proof.
  induction bySlot as [|[k' items] rest IH]; simpl; [reflexivity|].
  destruct (String.eqb k k'); simpl.
  - now rewrite map_app.
  - now rewrite IH.
Qed.

Lemma group_loop_typed (ids : list string) (bySlot : bySlot_t)
    (r : bySlot_js) :
  Forall (fun id => read badges id = Inherited ->
                    get slots "undefined" = None) ids ->
  group_loop slots badges (typed_groups bySlot) ids = Returns r ->
  r = typed_groups (fold_left (group_step slots badges) ids bySlot).
Proof.
  intros Hids. revert bySlot.
  induction Hids as [|id ids Hid _ IH]; intros bySlot; simpl.
  - congruence.
  - unfold group_step_js, group_step, make_entry.
    destruct (read badges id) as [spec| |] eqn:Eb.
    + apply read_Own in Eb. rewrite Eb.
      destruct (read slots (Badge.slot spec)) as [box| |] eqn:Es.
      * apply read_Own in Es. rewrite Es.
        destruct (inherited_member (Badge.slot spec)); [discriminate|].
        cbn [Placed.slot]. rewrite push_js_typed. apply IH.
      * discriminate.
      * apply read_Absent in Es as [Es _]. rewrite Es. apply IH.
    + rewrite (Hid eq_refl). apply read_Inherited in Eb as [Eb _].
      rewrite Eb. apply IH.
    + apply read_Absent in Eb as [Eb _]. rewrite Eb. apply IH.
Qed.

Lemma insert_index_typed (n : N) (e : string * list Placed.t)
    (l : list (N * (string * list Placed.t))) :
  map (fun ne => (fst ne, (fst (snd ne), map Typed (snd (snd ne)))))
      (insert_index n e l)
  = insert_index n (fst e, map Typed (snd e))
      (map (fun ne => (fst ne, (fst (snd ne), map Typed (snd (snd ne))))) l).
Proof.
  induction l as [|[m e'] l IH]; simpl; [reflexivity|].
  destruct (n <? m)%N; simpl; [reflexivity|]. now rewrite IH.
Qed.

Lemma index_members_typed (bySlot : bySlot_t) :
  index_members (typed_groups bySlot)
  = map (fun ne => (fst ne, (fst (snd ne), map Typed (snd (snd ne)))))
      (index_members bySlot).
Proof.
  induction bySlot as [|e rest IH]; simpl; [reflexivity|].
  destruct (array_index (fst e)); [|exact IH].
  now rewrite IH, insert_index_typed.
Qed.

Lemma Object_entries_typed (bySlot : bySlot_t) :
  Object_entries (typed_groups bySlot) = typed_groups (Object_entries bySlot).
Proof.
  unfold Object_entries, typed_groups.
  rewrite map_app, index_members_typed, !map_map. f_equal.
  induction bySlot as [|e rest IH]; simpl; [reflexivity|].
  destruct (is_array_index (fst e)); simpl; now rewrite IH.
Qed.

Lemma mapi_from_typed (f : Placed.t -> nat -> Placed.t)
    (g : entry -> nat -> entry) (i : nat) (items : list Placed.t) :
  (forall it j, g (Typed it) j = Typed (f it j)) ->
  mapi_from g i (map Typed items) = map Typed (mapi_from f i items).
Proof.
  intros Hfg. revert i. induction items as [|it items IH]; intros i; simpl;
    [reflexivity|].
  now rewrite Hfg, IH.
Qed.

Lemma slice_typed (a b : nat) (items : list Placed.t) :
  slice a b (map Typed items) = map Typed (slice a b items).
Proof. unfold slice. now rewrite skipn_map, firstn_map. Qed.

Lemma arrange_js_typed (k : string) (items : list Placed.t) :
  arrange_js slots k (map Typed items)
  = (map Typed (fst (arrange slots k items)), snd (arrange slots k items)).
Proof.
  unfold arrange_js, arrange.
  destruct (String.eqb k "safBadges" || String.eqb k "foreignBadges").
  { destruct (get slots k) as [box|]; [|reflexivity].
    unfold arrange_pyramid_js, arrange_pyramid, mapi.
    rewrite !length_map, !slice_typed. cbn [fst snd]. f_equal.
    destruct (Nat.min 3 (List.length items) =? 1)%nat.
    { destruct items; reflexivity. }
    destruct (Nat.min 3 (List.length items) =? 2)%nat.
    { now apply mapi_from_typed. }
    destruct (3 <=? Nat.min 3 (List.length items))%nat; [|reflexivity].
    rewrite map_app. f_equal; [destruct items; reflexivity|].
    now apply mapi_from_typed. }
  destruct (String.eqb k "medalsBelowRightPocket").
  { destruct (get slots k) as [box|]; [|reflexivity].
    unfold arrange_medals_js, arrange_medals, mapi.
    rewrite !length_map. cbn [fst snd]. f_equal. now apply mapi_from_typed. }
  destruct (String.eqb k "rightSleeveProficiency").
  { destruct (get slots k) as [box|]; [|reflexivity].
    unfold arrange_stack_js, arrange_stack, mapi.
    cbn [fst snd]. f_equal. now apply mapi_from_typed. }
  unfold arrange_single_js, arrange_single. rewrite length_map.
  cbn [fst snd]. f_equal. destruct items; reflexivity.
Qed.

Lemma fold_arrange_step_typed (es : list (string * list Placed.t))
    (acc : Layout) :
  fold_left (arrange_step_js slots) (typed_groups es) (typed_layout acc)
  = typed_layout (fold_left (arrange_step slots) es acc).
Proof.
  revert acc. induction es as [|[k items] es IH]; intros acc; simpl;
    [reflexivity|].
  rewrite <- IH. f_equal.
  unfold arrange_step_js, arrange_step. cbn [fst snd].
  rewrite arrange_js_typed. destruct (arrange slots k items) as [ps ws].
  unfold typed_layout. cbn [fst snd layout warnings layout_js warnings_js].
  now rewrite map_app.
Qed.

(** Whenever the call returns and built no entry from an inherited
    member, it returns the layout and the warnings of [computeLayout]. *)
Lemma computeLayout_js_returns (ids : list string) (r : LayoutJs) :
  Forall (fun id => read badges id = Inherited ->
                    get slots "undefined" = None) ids ->
  computeLayout_js slots badges ids = Returns r ->
  r = typed_layout (computeLayout slots badges ids).
Proof.
  intros Hids. unfold computeLayout_js, computeLayout, groupBySlot.
  destruct (group_loop slots badges [] ids) as [bySlot|] eqn:E;
    [|discriminate].
  intros [= <-].
  apply (group_loop_typed ids [] bySlot Hids) in E. subst bySlot.
  rewrite Object_entries_typed.
  apply (fold_arrange_step_typed _ (mkLayout [] [])).
Qed.

(** And it returns whenever no selected item names an inherited slot. *)
Lemma computeLayout_js_total (ids : list string) :
  (forall id spec, In id ids -> get badges id = Some spec ->
                   inherited_member (Badge.slot spec) = false) ->
  exists r, computeLayout_js slots badges ids = Returns r.
Proof.
  intros Hids.
  destruct (computeLayout_js slots badges ids) as [r|] eqn:E; [eauto|].
  apply computeLayout_js_throws in E as (id & spec & Hin & Hb & Hk).
  rewrite (Hids id spec Hin Hb) in Hk. discriminate.
Qed.

(** Together: on identifiers that are members of the badge table, with
    slots that no object inherits, the call returns the layout and the
    warnings of [computeLayout]. *)
Lemma computeLayout_js_typed (ids : list string) :
  (forall id, In id ids ->
              exists spec, get badges id = Some spec
                           /\ inherited_member (Badge.slot spec) = false) ->
  computeLayout_js slots badges ids
  = Returns (typed_layout (computeLayout slots badges ids)).
Proof.
  intros Hids.
  destruct (computeLayout_js_total ids) as [r Hr].
  { intros id spec Hin Hb. destruct (Hids id Hin) as (spec' & Hb' & Hk).
    congruence. }
  rewrite Hr. f_equal. apply computeLayout_js_returns; [|exact Hr].
  apply Forall_forall. intros id Hin Hinh.
  destruct (Hids id Hin) as (spec & Hb & _).
  apply read_Inherited in Hinh as [Hn _]. congruence.
Qed.

End MemberLookup.

(** C5.  The claim fails on the code where the slot identifier of an item
    is the name of a member every object inherits.  The slot table of the
    sample has no member ["constructor"], the item ["odd"] names that
    slot, and the call throws, with the rank beside it lost as well;
    without the member lookup of the language the item would be passed
    over.  An unknown identifier and an item with any other unknown slot
    are passed over, as the claim says. *)
Theorem unknown_slot_throws :
  get Samples.slots "constructor" = None /\
  get Samples.odd_badges "odd"
  = Some (Samples.badge "Odd" "saf" "constructor" "#000000") /\
  computeLayout_js Samples.slots Samples.odd_badges ["odd"] = Throws /\
  computeLayout_js Samples.slots Samples.odd_badges ["sergeant"; "odd"]
  = Throws /\
  computeLayout Samples.slots Samples.odd_badges ["sergeant"; "odd"]
  = computeLayout Samples.slots Samples.odd_badges ["sergeant"] /\
  computeLayout_js Samples.slots Samples.odd_badges
    ["sergeant"; "nope"; "ghost"]
  = computeLayout_js Samples.slots Samples.odd_badges ["sergeant"] /\
  computeLayout_js Samples.slots Samples.odd_badges ["sergeant"]
  = Returns
      (typed_layout
         (computeLayout Samples.slots Samples.odd_badges ["sergeant"])).
Proof. repeat split. Qed.

(** An identifier that is the name of an inherited member is passed over
    as well, unless the slot table has a member named ["undefined"]: then
    it is placed, without label, slot or colour. *)
Example inherited_identifier :
  computeLayout_js Samples.slots Samples.badges ["toString"; "sergeant"]
  = computeLayout_js Samples.slots Samples.badges ["sergeant"] /\
  computeLayout_js Samples.undefined_slots Samples.badges ["toString"]
  = Returns (mkLayoutJs [Untyped "toString" 10 20 30 40 5] []).
Proof. split; reflexivity. Qed.





(** ** Order of the warnings *)






(** The order on the sample selection, and on the numbered tables. *)
Example warnings_order_sample :
  warnings (computeLayout Samples.slots Samples.badges
              ["saf_a"; "sergeant"; "saf_b"; "captain"; "saf_c"; "saf_d"])
  = ["safBadges allows max 3; extra selections ignored.";
     "leftSleeveRank: multiple selections; only first shown."].
Proof. reflexivity. Qed.

Example warnings_order_numbered :
  first_occurrences
    (map Placed.slot
       (resolved Samples.numbered_slots Samples.numbered_badges
          ["a"; "b"; "c"; "d"])) = ["2"; "1"] /\
  warnings (computeLayout Samples.numbered_slots Samples.numbered_badges
              ["a"; "b"; "c"; "d"])
  = ["1: multiple selections; only first shown.";
     "2: multiple selections; only first shown."].
Proof. split; reflexivity. Qed.

(** ** Geometry *)








Section Geometry.
Variable slots : table Slot.t.
Variable badges : table Badge.t.


End Geometry.


(** ** Repeated identifiers *)



Section Repeats.
Variable slots : table Slot.t.
Variable badges : table Badge.t.


End Repeats.



Example repeated_identifier_sample :
  map (fun p => (Placed.id p, Placed.x p))
    (layout (computeLayout Samples.slots Samples.badges
               ["medal_x"; "medal_x"; "medal_x"]))
  = [("medal_x", 540 + (240 - (of_nat 3 * 50 + (of_nat 3 - 1) * 10)) / 2
                 + of_nat 0 * (50 + 10));
     ("medal_x", 540 + (240 - (of_nat 3 * 50 + (of_nat 3 - 1) * 10)) / 2
                 + of_nat 1 * (50 + 10));
     ("medal_x", 540 + (240 - (of_nat 3 * 50 + (of_nat 3 - 1) * 10)) / 2
                 + of_nat 2 * (50 + 10))].
Proof. reflexivity. Qed.

(** ** Scenarios of the specification, on the sample tables *)

Example scenario_rank_only :
  computeLayout Samples.slots Samples.badges ["sergeant"]
  = mkLayout
      [Placed.mk "sergeant" "3SG" "leftSleeveRank" 200 400 120 80 1
         "#1f2937" None]
      [].
Proof. reflexivity. Qed.

Example scenario_empty :
  computeLayout Samples.slots Samples.badges [] = mkLayout [] [].
Proof. reflexivity. Qed.

Example scenario_four_service_badges :
  map (fun p => (Placed.id p, Qred (Placed.x p), Qred (Placed.y p)))
    (layout (computeLayout Samples.slots Samples.badges
               ["saf_a"; "saf_b"; "saf_c"; "saf_d"]))
  = [("saf_a", 615, 300); ("saf_b", 566, 368); ("saf_c", 664, 368)].
Proof. reflexivity. Qed.

Example scenario_two_medals :
  map (fun p => (Placed.id p, Qred (Placed.x p), Qred (Placed.y p),
                 Placed.w p, Placed.h p))
    (layout (computeLayout Samples.slots Samples.badges
               ["medal_x"; "medal_y"]))
  = [("medal_x", 605, 460, 50, 60); ("medal_y", 665, 460, 50, 60)] /\
  warnings (computeLayout Samples.slots Samples.badges ["medal_x"; "medal_y"])
  = [].
Proof. split; reflexivity. Qed.

Example scenario_no_context :
  fitFontSize None "3SG" 120 80 None = 18%Z /\
  fitFontSize (Some Samples.fixed_pitch) "3SG" 120 80 None = 56%Z.
Proof. split; reflexivity. Qed.

(** * Further properties of the layout engine *)

Section EngineFacts.
Variable slots : table Slot.t.
Variable badges : table Badge.t.


Lemma length_resolved_le (ids : list string) :
  (List.length (resolved slots badges ids) <= List.length ids)%nat.
Proof.
  unfold resolved. induction ids as [|id ids IH]; simpl; [lia|].
  rewrite length_app. destruct (make_entry slots badges id); simpl; lia.
Qed.

Lemma length_routed_le (k : string) (ids : list string) :
  (List.length (routed slots badges k ids) <= List.length ids)%nat.
Proof.
  unfold routed.
  pose proof (filter_length_le
                (fun e => String.eqb (Placed.slot e) k)
                (resolved slots badges ids)).
  pose proof (length_resolved_le ids). lia.
Qed.

(** The groups of [bySlot], put end to end, are the resolved entries in
    another order. *)
Lemma push_entry_perm (k : string) (e : Placed.t) (g : bySlot_t) :
  Permutation (flat_map snd (push_entry k e g)) (flat_map snd g ++ [e]).
Proof.
  induction g as [|[k0 items] g IH]; simpl; [reflexivity|].
  destruct (String.eqb k k0); simpl.
  - rewrite <- !app_assoc. apply Permutation_app_head, Permutation_app_comm.
  - rewrite IH, app_assoc. reflexivity.
Qed.

Lemma groupBySlot_perm (ids : list string) :
  Permutation (flat_map snd (groupBySlot slots badges ids))
              (resolved slots badges ids).
Proof.
  induction ids as [|id ids IH] using rev_ind; [reflexivity|].
  rewrite groupBySlot_snoc, resolved_app. unfold group_step.
  unfold resolved at 2; simpl.
  destruct (make_entry slots badges id) as [e|]; simpl.
  - rewrite push_entry_perm. now apply Permutation_app_tail.
  - now rewrite app_nil_r.
Qed.

Lemma entries_perm_resolved (ids : list string) :
  Permutation
    (flat_map snd (Object_entries (groupBySlot slots badges ids)))
    (resolved slots badges ids).
Proof.
  rewrite <- groupBySlot_perm.
  apply Permutation_flat_map, Object_entries_perm.
Qed.



End EngineFacts.





(** ** Where the tiles lie *)


Lemma of_nat_nonneg (i : nat) : 0 <= of_nat i.
Proof.
  unfold of_nat. change 0 with (inject_Z 0). rewrite <- Zle_Qle. lia.
Qed.

Lemma of_nat_le (i j : nat) : (i <= j)%nat -> of_nat i <= of_nat j.
Proof. intros H. unfold of_nat. rewrite <- Zle_Qle. lia. Qed.











(** ** What is kept of a selection *)

Lemma NoDup_app_disjoint {A : Type} (l1 l2 : list A) :
  NoDup (l1 ++ l2) -> forall a, In a l1 -> ~ In a l2.
Proof.
  induction l1 as [|b l1 IH]; simpl; [tauto|].
  intros Hnd a [<-|Ha] Hin; inversion Hnd as [|? ? Hni Hnd']; subst.
  - apply Hni, in_or_app. now right.
  - exact (IH Hnd' a Ha Hin).
Qed.

Lemma NoDup_firstn {A : Type} (n : nat) (l : list A) :
  NoDup l -> NoDup (firstn n l).
Proof.
  intros H. rewrite <- (firstn_skipn n l) in H.
  exact (NoDup_app_remove_r _ _ H).
Qed.

Lemma In_firstn {A : Type} (n : nat) (l : list A) (a : A) :
  In a (firstn n l) -> In a l.
Proof.
  intros H. rewrite <- (firstn_skipn n l). apply in_or_app. now left.
Qed.

Lemma map_flat_map {A B C : Type} (f : B -> C) (g : A -> list B) (l : list A) :
  map f (flat_map g l) = flat_map (fun a => map f (g a)) l.
Proof.
  induction l as [|a l IH]; simpl; [reflexivity|].
  now rewrite map_app, IH.
Qed.

Lemma Forall2_flat_map {A B C : Type} (R : B -> C -> Prop)
    (f : A -> list B) (g : A -> list C) (l : list A) :
  (forall a, In a l -> Forall2 R (f a) (g a)) ->
  Forall2 R (flat_map f l) (flat_map g l).
Proof.
  induction l as [|a l IH]; intros H; simpl; [constructor|].
  apply Forall2_app; [apply H; now left|].
  apply IH. intros b Hb. apply H. now right.
Qed.

Lemma Forall2_same_item_mapi_from (x y w h : Placed.t -> nat -> Q)
    (l : list Placed.t) (s : nat) :
  Forall2 same_item
    (mapi_from
       (fun it i => Placed.set_geometry it (x it i) (y it i) (w it i) (h it i))
       s l)
    l.
Proof.
  revert s; induction l as [|a l IH]; intros s; simpl; constructor;
    [apply same_item_set_geometry | apply IH].
Qed.

Lemma Forall2_same_item_ids (ps its : list Placed.t) :
  Forall2 same_item ps its -> map Placed.id ps = map Placed.id its.
Proof.
  induction 1 as [|p it ps its Hs _ IH]; simpl; [reflexivity|].
  destruct Hs as (-> & _). now rewrite IH.
Qed.

Lemma uncapped_slot_cases (k : string) :
  is_pyramid_slot k = false -> is_single_slot k = false ->
  k = "medalsBelowRightPocket" \/ k = "rightSleeveProficiency".
Proof.
  unfold is_single_slot. intros ->. simpl.
  destruct (String.eqb_spec k "medalsBelowRightPocket"); [now left|].
  destruct (String.eqb_spec k "rightSleeveProficiency"); [now right|].
  discriminate.
Qed.

Section Kept.
Variable slots : table Slot.t.
Variable badges : table Badge.t.

(** The placements of a group are the items its rule keeps, moved and
    resized. *)
Lemma arrange_kept (k : string) (box : Slot.t) (items : list Placed.t) :
  get slots k = Some box ->
  Forall2 same_item (fst (arrange slots k items)) (kept k items).
Proof.
  intros Hbox. unfold kept.
  destruct (is_pyramid_slot k) eqn:Hp.
  - rewrite (arrange_pyramid_eq _ _ box) by assumption.
    destruct items as [|a [|b [|c rest]]]; simpl;
      repeat constructor; apply same_item_set_geometry.
  - destruct (is_single_slot k) eqn:Hs.
    + rewrite arrange_single_eq by exact Hs.
      destruct items as [|a rest]; simpl; constructor;
        [apply same_item_refl | constructor].
    + destruct (uncapped_slot_cases k Hp Hs); subst k.
      * rewrite (arrange_medals_eq _ box) by exact Hbox.
        apply Forall2_same_item_mapi_from.
      * rewrite (arrange_stack_eq _ box) by exact Hbox.
        apply Forall2_same_item_mapi_from.
Qed.

(** Arranging what a rule keeps places the same tiles again, and gives no
    warning. *)
Lemma arrange_kept_again (k : string) (items : list Placed.t) :
  fst (arrange slots k (kept k items)) = fst (arrange slots k items) /\
  snd (arrange slots k (kept k items)) = [].
Proof.
  unfold kept.
  destruct (is_pyramid_slot k) eqn:Hp.
  - destruct (get slots k) as [box|] eqn:Hbox.
    + rewrite !(arrange_pyramid_eq _ _ box) by assumption.
      destruct items as [|a [|b [|c rest]]]; simpl; auto.
    + unfold arrange. unfold is_pyramid_slot in Hp. rewrite Hp, Hbox. auto.
  - destruct (is_single_slot k) eqn:Hs.
    + rewrite !arrange_single_eq by exact Hs.
      destruct items as [|a rest]; simpl; auto.
    + split; [reflexivity|].
      destruct (uncapped_slot_cases k Hp Hs); subst k; unfold arrange; simpl;
        destruct (get slots _); reflexivity.
Qed.

Lemma kept_prefix (k : string) (items : list Placed.t) :
  exists n, kept k items = firstn n items.
Proof.
  unfold kept. destruct (is_pyramid_slot k); [now exists 3%nat|].
  destruct (is_single_slot k); [now exists 1%nat|].
  exists (List.length items). now rewrite firstn_all.
Qed.

(** The entries behind the placements, in the order of the layout. *)
Lemma layout_kept (ids : list string) :
  Forall2 same_item (layout (computeLayout slots badges ids))
    (flat_map (fun e => kept (fst e) (snd e))
       (Object_entries (groupBySlot slots badges ids))).
Proof.
  rewrite computeLayout_layout. apply Forall2_flat_map.
  intros [k items] Hin. unfold placed_by; simpl.
  eapply Permutation_in in Hin; [|apply Object_entries_perm].
  destruct (groupBySlot_box _ _ _ _ _ Hin) as [box Hbox].
  now apply (arrange_kept k box).
Qed.

Lemma ids_of_resolved (ids : list string) :
  map Placed.id (resolved slots badges ids)
  = filter (fun id => match make_entry slots badges id with
                      | Some _ => true
                      | None => false
                      end) ids.
Proof.
  unfold resolved. induction ids as [|id ids IH]; simpl; [reflexivity|].
  rewrite map_app, IH.
  destruct (make_entry slots badges id) as [e|] eqn:E; simpl; [|reflexivity].
  destruct (make_entry_Some _ _ _ _ E) as (spec & box & _ & _ & ->).
  reflexivity.
Qed.

Lemma NoDup_kept_ids (es : bySlot_t) :
  NoDup (map Placed.id (flat_map snd es)) ->
  NoDup (map Placed.id (flat_map (fun e => kept (fst e) (snd e)) es)).
Proof.
  induction es as [|[k items] es IH]; simpl; [constructor|].
  rewrite !map_app. intros Hnd.
  destruct (kept_prefix k items) as [n ->].
  apply NoDup_app.
  - rewrite <- firstn_map. apply NoDup_firstn.
    exact (NoDup_app_remove_r _ _ Hnd).
  - apply IH. exact (NoDup_app_remove_l _ _ Hnd).
  - intros a Ha Hin. rewrite <- firstn_map in Ha. apply In_firstn in Ha.
    apply (NoDup_app_disjoint _ _ Hnd a Ha).
    rewrite map_flat_map in Hin |- *.
    apply in_flat_map in Hin as ([k' items'] & He & Hin).
    apply in_flat_map. exists (k', items'). split; [exact He|].
    simpl in *. destruct (kept_prefix k' items') as [m Hm].
    rewrite Hm, <- firstn_map in Hin. now apply In_firstn in Hin.
Qed.

Lemma resolved_of_entries (entries : list Placed.t) :
  Forall (fun e => make_entry slots badges (Placed.id e) = Some e) entries ->
  resolved slots badges (map Placed.id entries) = entries.
Proof.
  unfold resolved. induction 1 as [|e l He _ IH]; simpl; [reflexivity|].
  now rewrite He, IH.
Qed.

End Kept.

Lemma layout_ids_NoDup (slots : table Slot.t) (badges : table Badge.t)
    (ids : list string) :
  NoDup ids ->
  NoDup (map Placed.id (layout (computeLayout slots badges ids))).
Proof.
  intros Hnd.
  rewrite (Forall2_same_item_ids _ _ (layout_kept slots badges ids)).
  apply NoDup_kept_ids.
  eapply Permutation_NoDup.
  - apply Permutation_map, Permutation_sym, entries_perm_resolved.
  - rewrite ids_of_resolved. now apply NoDup_filter.
Qed.

(** X8.  A selection without repeated identifiers gives a layout without
    repeated identifiers. *)
Theorem distinct_ids (slots : table Slot.t) (badges : table Badge.t)
    (ids : list string) :
  NoDup ids ->
  NoDup (map Placed.id (layout (computeLayout slots badges ids))).
Proof. apply layout_ids_NoDup. Qed.

Lemma distinct_ids_witness :
  NoDup (map Placed.id
           (layout (computeLayout Samples.slots Samples.badges
                      ["saf_a"; "sergeant"; "saf_b"; "medal_x"; "captain"]))).
Proof.
  apply (distinct_ids Samples.slots Samples.badges
           ["saf_a"; "sergeant"; "saf_b"; "medal_x"; "captain"]).
  repeat constructor; simpl; intuition discriminate.
Defined.

(** X9.  Selecting again exactly the identifiers that were placed gives,
    slot by slot, the same placements, and no warning. *)
Theorem placed_ids_again (slots : table Slot.t) (badges : table Badge.t)
    (ids : list string) :
  (forall k,
     placements_of k
       (layout
          (computeLayout slots badges
             (map Placed.id (layout (computeLayout slots badges ids)))))
     = placements_of k (layout (computeLayout slots badges ids))) /\
  warnings
    (computeLayout slots badges
       (map Placed.id (layout (computeLayout slots badges ids)))) = [].
Proof.
  set (es := Object_entries (groupBySlot slots badges ids)).
  set (O := flat_map (fun e => kept (fst e) (snd e)) es).
  assert (Hids : map Placed.id (layout (computeLayout slots badges ids))
                 = map Placed.id O)
    by apply Forall2_same_item_ids, layout_kept.
  assert (Hres : resolved slots badges (map Placed.id O) = O).
  { apply resolved_of_entries, Forall_forall. intros e He.
    apply in_flat_map in He as ([k items] & Hin & He). simpl in He.
    eapply Permutation_in in Hin; [|apply Object_entries_perm].
    apply groupBySlot_In in Hin as [-> _].
    destruct (kept_prefix k (routed slots badges k ids)) as [n Hn].
    rewrite Hn in He. apply In_firstn in He.
    unfold routed in He. apply filter_In in He as [He _].
    now apply resolved_In in He. }
  assert (Hrouted : forall k,
             routed slots badges k (map Placed.id O)
             = kept k (routed slots badges k ids)).
  { intros k. unfold routed at 1. rewrite Hres.
    change (filter (fun e => String.eqb (Placed.slot e) k) O)
      with (placements_of k O).
    unfold O. rewrite filter_flat_map_keyed.
    - unfold es. rewrite get_entries.
      destruct (routed slots badges k ids) eqn:E; [|reflexivity].
      unfold kept. now destruct (is_pyramid_slot k), (is_single_slot k).
    - apply entries_NoDup.
    - intros [k' items] p Hin Hp. simpl in *.
      eapply Permutation_in in Hin; [|apply Object_entries_perm].
      apply groupBySlot_In in Hin as [-> _].
      destruct (kept_prefix k' (routed slots badges k' ids)) as [n Hn].
      rewrite Hn in Hp. apply In_firstn in Hp.
      eapply routed_slot; eauto. }
  rewrite Hids. split.
  - intros k. rewrite !placements_of_layout, Hrouted.
    apply arrange_kept_again.
  - destruct (warnings (computeLayout slots badges (map Placed.id O)))
      as [|w ws] eqn:E; [reflexivity|].
    assert (Hin : In w (warnings (computeLayout slots badges
                                    (map Placed.id O))))
      by (rewrite E; now left).
    apply warnings_In in Hin as (k & Hw). rewrite Hrouted in Hw.
    destruct (arrange_kept_again slots k (routed slots badges k ids))
      as [_ Hnil].
    rewrite Hnil in Hw. destruct Hw.
Qed.

(** * Further properties of the text-fit estimator *)

Lemma height_bound_ge_10 (boxH ratio : Q) :
  (10 <= Qfloor (Qmax 10 (fmul boxH ratio)))%Z.
Proof. change 10%Z with (Qfloor 10). apply Qfloor_resp_le, Q.le_max_l. Qed.

Lemma measured_width_nonneg (measureText : MeasureCtx) (font label : string) :
  0 <= measureText font label -> 0 <= measured_width measureText font label.
Proof.
  intros H. unfold measured_width.
  destruct (Qeq_bool (measureText font label) 0); [|exact H].
  unfold fmul at 1. apply round53_nonneg.
  apply Qmult_le_0_compat; [|apply of_nat_nonneg].
  rewrite base_times_06. discriminate.
Qed.

Lemma eighteen_is_reached (boxH : Q) (opts : option FitOpts.t) :
  18 <= boxH * opt_or opts FitOpts.maxHeightRatio 0.7%Q ->
  18 <= fmul boxH (opt_or opts FitOpts.maxHeightRatio (round53 0.7)).
Proof.
  assert (H18 : forall x, 18 <= x -> 18 <= round53 x).
  { intros x Hx. apply round53_mono in Hx.
    eapply Qle_trans; [|exact Hx]. vm_compute. discriminate. }
  unfold fmul.
  destruct opts as [[pad [r|] w f]|]; cbn [opt_or FitOpts.maxHeightRatio];
    [apply H18| |].
  all: intros Hbig.
  all: assert (Hh : (180 # 7) <= boxH) by lra.
  all: apply (Qmult_le_compat_r _ _ (round53 0.7)) in Hh;
    [|apply default_ratio_nonneg].
  all: apply round53_mono in Hh.
  all: eapply Qle_trans; [|exact Hh].
  all: vm_compute; discriminate.
Qed.

(** X10.  Without a measuring context the size lies between 10 and 18; it
    depends on the height of the box only, and is 18 as soon as
    [boxH * maxHeightRatio] is at least 18. *)
Theorem fitFontSize_without_context (label : string) (boxW boxH : Q)
    (opts : option FitOpts.t) :
  (10 <= fitFontSize None label boxW boxH opts <= 18)%Z /\
  (forall label' boxW',
     fitFontSize None label' boxW' boxH opts
     = fitFontSize None label boxW boxH opts) /\
  (18 <= boxH * opt_or opts FitOpts.maxHeightRatio 0.7%Q ->
   fitFontSize None label boxW boxH opts = 18%Z).
Proof.
  unfold fitFontSize.
  set (hb := Qmax 10 (fmul boxH
                        (opt_or opts FitOpts.maxHeightRatio (round53 0.7)))).
  assert (Hhb : 10 <= hb) by apply Q.le_max_l.
  split; [split|split].
  - change 10%Z with (Qfloor 10). apply Qfloor_resp_le.
    apply Q.min_glb; [discriminate | exact Hhb].
  - change 18%Z with (Qfloor 18). apply Qfloor_resp_le, Q.le_min_l.
  - reflexivity.
  - intros Hbig. change 18%Z with (Qfloor 18). apply Qfloor_comp.
    apply Q.min_l. unfold hb.
    eapply Qle_trans; [apply eighteen_is_reached, Hbig | apply Q.le_max_r].
Qed.

(** X11.  With a measuring context and a label of positive measured
    width: when the width bound [availableW / measured * 100], computed on
    doubles, is at least 10, the size returned is at most that bound, and
    the label scaled to the size is no wider than the available width
    enlarged by two roundings (a factor [(1 + 2^-53)^2]); when the bound
    is below 10, the size returned is 10. *)
Theorem fitFontSize_fits_width (measureText : MeasureCtx) (label : string)
    (boxW boxH : Q) (opts : option FitOpts.t) :
  0 < measured_width measureText
        (opt_or opts FitOpts.weight "600" ++ " 100px "
         ++ opt_or opts FitOpts.family "Inter, Arial, sans-serif")%string
        label ->
  (10 <= fmul
           (fdiv
              (Qmax 10 (fsub boxW (fmul (opt_or opts FitOpts.padding 8%Q) 2)))
              (measured_width measureText
                 (opt_or opts FitOpts.weight "600" ++ " 100px "
                  ++ opt_or opts FitOpts.family
                       "Inter, Arial, sans-serif")%string
                 label))
           100 ->
   inject_Z (fitFontSize (Some measureText) label boxW boxH opts)
   <= fmul
        (fdiv
           (Qmax 10 (fsub boxW (fmul (opt_or opts FitOpts.padding 8%Q) 2)))
           (measured_width measureText
              (opt_or opts FitOpts.weight "600" ++ " 100px "
               ++ opt_or opts FitOpts.family
                    "Inter, Arial, sans-serif")%string
              label))
        100 /\
   inject_Z (fitFontSize (Some measureText) label boxW boxH opts)
   * measured_width measureText
       (opt_or opts FitOpts.weight "600" ++ " 100px "
        ++ opt_or opts FitOpts.family "Inter, Arial, sans-serif")%string
       label / 100
   <= Qmax 10 (fsub boxW (fmul (opt_or opts FitOpts.padding 8%Q) 2))
      * (1 + half_ulp) * (1 + half_ulp)) /\
  (fmul
     (fdiv
        (Qmax 10 (fsub boxW (fmul (opt_or opts FitOpts.padding 8%Q) 2)))
        (measured_width measureText
           (opt_or opts FitOpts.weight "600" ++ " 100px "
            ++ opt_or opts FitOpts.family "Inter, Arial, sans-serif")%string
           label))
     100 < 10 ->
   fitFontSize (Some measureText) label boxW boxH opts = 10%Z).
Proof.
  unfold fitFontSize.
  set (m := measured_width _ _ _).
  set (aw := Qmax 10 (fsub boxW (fmul (opt_or opts FitOpts.padding 8%Q) 2))).
  set (hb := Qmax 10 (fmul boxH
                        (opt_or opts FitOpts.maxHeightRatio (round53 0.7)))).
  intros Hm.
  assert (Hne : ~ m == 0) by (intros E; rewrite E in Hm; discriminate Hm).
  unfold div_pos. destruct (Qeq_bool m 0) eqn:E;
    [apply Qeq_bool_iff in E; contradiction|].
  cbn [xmul min_fin]. set (fw := fmul (fdiv aw m) 100). split.
  - intros Hfw.
    assert (H10 : 10 <= Qmin hb fw)
      by (apply Q.min_glb; [apply Q.le_max_l | exact Hfw]).
    apply Qfloor_resp_le in H10. change (Qfloor 10) with 10%Z in H10.
    rewrite Z.max_r by exact H10.
    assert (Hle : inject_Z (Qfloor (Qmin hb fw)) <= fw).
    { eapply Qle_trans; [apply Qfloor_le | apply Q.le_min_r]. }
    split; [exact Hle|].
    assert (Haw : 0 < aw).
    { eapply Qlt_le_trans; [|apply (Q.le_max_l 10)]. reflexivity. }
    assert (Hq : 0 < aw / m).
    { unfold Qdiv. apply Qmult_lt_0_compat; [exact Haw|].
      now apply Qinv_lt_0_compat. }
    destruct (round53_near _ Hq) as [_ Hq2].
    assert (Hq0 : 0 < fdiv aw m) by now apply round53_pos.
    assert (Hp : 0 < fdiv aw m * 100)
      by (apply Qmult_lt_0_compat; [exact Hq0 | reflexivity]).
    destruct (round53_near _ Hp) as [_ Hp2].
    fold (fdiv aw m) in Hq2. fold (fmul (fdiv aw m) 100) in Hp2. fold fw in Hp2.
    assert (Hu : 0 <= 1 + half_ulp) by discriminate.
    assert (Hfw2 : fw <= aw / m * (1 + half_ulp) * 100 * (1 + half_ulp)).
    { eapply Qle_trans; [exact Hp2|].
      apply Qmult_le_compat_r; [|exact Hu].
      apply Qmult_le_compat_r; [exact Hq2 | discriminate]. }
    assert (Hsz : inject_Z (Qfloor (Qmin hb fw))
                  <= aw / m * (1 + half_ulp) * 100 * (1 + half_ulp))
      by (eapply Qle_trans; eassumption).
    apply (Qmult_le_compat_r _ _ m) in Hsz; [|now apply Qlt_le_weak].
    apply (Qmult_le_compat_r _ _ (/ 100)) in Hsz; [|discriminate].
    eapply Qle_trans; [exact Hsz|]. apply Qle_lteq. right. now field.
  - intros Hfw.
    assert (H10 : Qmin hb fw < 10).
    { eapply Qle_lt_trans; [apply Q.le_min_r | exact Hfw]. }
    assert (Hfl : (Qfloor (Qmin hb fw) <= 10)%Z).
    { change 10%Z with (Qfloor 10). now apply Qfloor_resp_le, Qlt_le_weak. }
    lia.
Qed.

Lemma fitFontSize_fits_width_witness :
  (10 <= fmul
           (fdiv
              (Qmax 10 (fsub 120 (fmul (opt_or None FitOpts.padding 8%Q) 2)))
              (measured_width Samples.fixed_pitch
                 (opt_or None FitOpts.weight "600" ++ " 100px "
                  ++ opt_or None FitOpts.family
                       "Inter, Arial, sans-serif")%string
                 "3SG"))
           100 ->
   inject_Z (fitFontSize (Some Samples.fixed_pitch) "3SG" 120 80 None)
   <= fmul
        (fdiv
           (Qmax 10 (fsub 120 (fmul (opt_or None FitOpts.padding 8%Q) 2)))
           (measured_width Samples.fixed_pitch
              (opt_or None FitOpts.weight "600" ++ " 100px "
               ++ opt_or None FitOpts.family
                    "Inter, Arial, sans-serif")%string
              "3SG"))
        100 /\
   inject_Z (fitFontSize (Some Samples.fixed_pitch) "3SG" 120 80 None)
   * measured_width Samples.fixed_pitch
       (opt_or None FitOpts.weight "600" ++ " 100px "
        ++ opt_or None FitOpts.family "Inter, Arial, sans-serif")%string
       "3SG" / 100
   <= Qmax 10 (fsub 120 (fmul (opt_or None FitOpts.padding 8%Q) 2))
      * (1 + half_ulp) * (1 + half_ulp)) /\
  (fmul
     (fdiv
        (Qmax 10 (fsub 120 (fmul (opt_or None FitOpts.padding 8%Q) 2)))
        (measured_width Samples.fixed_pitch
           (opt_or None FitOpts.weight "600" ++ " 100px "
            ++ opt_or None FitOpts.family "Inter, Arial, sans-serif")%string
           "3SG"))
     100 < 10 ->
   fitFontSize (Some Samples.fixed_pitch) "3SG" 120 80 None = 10%Z).
Proof.
  apply (fitFontSize_fits_width Samples.fixed_pitch "3SG" 120 80 None).
  vm_compute. reflexivity.
Defined.

(** The slack of X11 is needed: in a box 298 wide, a label measured
    145.36082474226805 wide at the reference size gets the size 194, and
    at that size it is wider than the 282 units available. *)
Example fitFontSize_width_rounded_up :
  fitFontSize (Some (fun _ _ => round53 145.36082474226805)) "A" 298 400 None
  = 194%Z /\
  Qmax 10 (fsub 298 (fmul 8 2)) == 282 /\
  282 < 194 * round53 145.36082474226805 / 100.
Proof. repeat split; vm_compute; reflexivity. Qed.

(** X12.  A larger box never gives a smaller size: for a measured width
    that is not negative and a height ratio that is not negative,
    [fitFontSize] is monotone in the width and in the height of the box,
    with or without a measuring context. *)
Theorem fitFontSize_monotone (ctx : option MeasureCtx) (label : string)
    (boxW boxH boxW' boxH' : Q) (opts : option FitOpts.t) :
  (forall measureText font, ctx = Some measureText ->
                            0 <= measureText font label) ->
  0 <= opt_or opts FitOpts.maxHeightRatio 0.7%Q ->
  boxW <= boxW' -> boxH <= boxH' ->
  (fitFontSize ctx label boxW boxH opts
   <= fitFontSize ctx label boxW' boxH' opts)%Z.
Proof.
  intros Hctx Hratio HW HH. apply ratio_nonneg in Hratio. unfold fitFontSize.
  set (ratio := opt_or opts FitOpts.maxHeightRatio (round53 0.7)) in *.
  set (pad := opt_or opts FitOpts.padding 8%Q).
  assert (Hhb : Qmax 10 (fmul boxH ratio) <= Qmax 10 (fmul boxH' ratio)).
  { apply Q.max_le_compat_l. now apply fmul_mono_l. }
  assert (Haw : Qmax 10 (fsub boxW (fmul pad 2))
                <= Qmax 10 (fsub boxW' (fmul pad 2))).
  { apply Q.max_le_compat_l. now apply fsub_mono_l. }
  destruct ctx as [measureText|].
  - set (m := measured_width measureText _ label).
    assert (Hm : 0 <= m) by (apply measured_width_nonneg; eauto).
    apply Z.max_le_compat_l, Qfloor_resp_le.
    unfold div_pos. destruct (Qeq_bool m 0) eqn:E; cbn [xmul min_fin];
      [exact Hhb|].
    assert (Hpos : 0 < m).
    { apply Qle_lteq in Hm as [Hm|Hm]; [exact Hm|].
      symmetry in Hm. apply Qeq_bool_iff in Hm. congruence. }
    apply Q.min_le_compat; [exact Hhb|].
    apply fmul_mono_l; [discriminate|].
    now apply fdiv_mono_l.
  - apply Qfloor_resp_le, Q.min_le_compat_l, Hhb.
Qed.

Lemma fitFontSize_monotone_witness :
  (fitFontSize (Some Samples.fixed_pitch) "3SG" 50 36 None
   <= fitFontSize (Some Samples.fixed_pitch) "3SG" 120 80 None)%Z.
Proof.
  apply (fitFontSize_monotone (Some Samples.fixed_pitch) "3SG" 50 36 120 80
           None).
  - intros measureText font [= <-]. unfold Samples.fixed_pitch.
    apply Qmult_le_0_compat; [discriminate | apply of_nat_nonneg].
  - discriminate.
  - discriminate.
  - discriminate.
Defined.

Lemma calls_cached (c : MeasureCtx)
    (calls : list (option MeasureCtx * (string * Q * Q))) :
  fitFontSize_calls (Some c) calls
  = (map (fun call =>
            fitFontSize (Some c) (fst (fst (snd call)))
              (snd (fst (snd call))) (snd (snd call)) None) calls,
     Some c).
Proof.
  induction calls as [|[created [[label boxW] boxH]] calls IH];
    simpl; [reflexivity|].
  unfold fitFontSize_call; simpl. now rewrite IH.
Qed.

(** X13.  Once a measuring context is cached, every later call of
    [fitFontSize] measures with it, whatever the document would give, and
    the cache keeps it.  As long as the cache is empty and the document
    gives no context, every call takes the fallback and the cache stays
    empty; the first context the document gives is the one that is
    cached. *)
Theorem cached_context_is_kept
    (calls : list (option MeasureCtx * (string * Q * Q))) :
  (forall c,
     fitFontSize_calls (Some c) calls
     = (map (fun call =>
               fitFontSize (Some c) (fst (fst (snd call)))
                 (snd (fst (snd call))) (snd (snd call)) None) calls,
        Some c)) /\
  (Forall (fun call => fst call = None) calls ->
   fitFontSize_calls None calls
   = (map (fun call =>
             fitFontSize None (fst (fst (snd call)))
               (snd (fst (snd call))) (snd (snd call)) None) calls,
      None)) /\
  (forall c call later,
     Forall (fun call => fst call = None) calls ->
     fitFontSize_calls None (calls ++ (Some c, call) :: later)
     = (map (fun call =>
               fitFontSize None (fst (fst (snd call)))
                 (snd (fst (snd call))) (snd (snd call)) None) calls
        ++ map (fun call =>
                  fitFontSize (Some c) (fst (fst (snd call)))
                    (snd (fst (snd call))) (snd (snd call)) None)
             ((Some c, call) :: later),
        Some c)).
Proof.
  split; [|split].
  - intros c. apply calls_cached.
  - induction 1 as [|[created [[label boxW] boxH]] calls Hc _ IH];
      simpl; [reflexivity|].
    simpl in Hc. subst created. unfold fitFontSize_call; simpl.
    now rewrite IH.
  - intros c [[label boxW] boxH] later.
    induction 1 as [|[created [[label' boxW'] boxH']] calls Hc _ IH].
    + simpl. unfold fitFontSize_call; simpl. now rewrite calls_cached.
    + simpl in Hc. subst created. simpl. unfold fitFontSize_call; simpl.
      simpl in IH. unfold fitFontSize_call in IH. simpl in IH.
      now rewrite IH.
Qed.

(** * The code around the engine *)

(** ** Sorting by [z] *)

Section SortFacts.
Context {A : Type} (key : A -> Q).

Lemma insert_sorted_perm (a : A) (l : list A) :
  Permutation (insert_sorted key a l) (a :: l).
Proof.
  induction l as [|b l IH]; simpl; [reflexivity|].
  destruct (Qle_bool (key a) (key b)); [reflexivity|].
  rewrite IH. apply perm_swap.
Qed.

Lemma sort_by_perm (l : list A) : Permutation (sort_by key l) l.
Proof.
  induction l as [|a l IH]; simpl; [reflexivity|].
  rewrite insert_sorted_perm. now constructor.
Qed.

Lemma insert_sorted_sorted (a : A) (l : list A) :
  StronglySorted (fun x y => key x <= key y) l ->
  StronglySorted (fun x y => key x <= key y) (insert_sorted key a l).
Proof.
  induction 1 as [|b l Hs IH Hb]; simpl; [repeat constructor|].
  destruct (Qle_bool (key a) (key b)) eqn:E.
  - apply Qle_bool_iff in E. constructor; [now constructor|].
    constructor; [exact E|].
    eapply Forall_impl; [|exact Hb]. intros c Hc. eapply Qle_trans; eauto.
  - assert (Hba : key b <= key a).
    { apply Qlt_le_weak, Qnot_le_lt. intros H.
      apply Qle_bool_iff in H. congruence. }
    constructor; [exact IH|].
    eapply Permutation_Forall; [symmetry; apply insert_sorted_perm|].
    now constructor.
Qed.

Lemma sort_by_sorted (l : list A) :
  StronglySorted (fun x y => key x <= key y) (sort_by key l).
Proof.
  induction l as [|a l IH]; simpl; [constructor|].
  now apply insert_sorted_sorted.
Qed.

(** Elements of equal key keep their order. *)
Lemma insert_sorted_stable (z0 : Q) (a : A) (l : list A) :
  filter (fun x => Qeq_bool (key x) z0) (insert_sorted key a l)
  = filter (fun x => Qeq_bool (key x) z0) (a :: l).
Proof.
  induction l as [|b l IH]; [reflexivity|].
  cbn [insert_sorted].
  destruct (Qle_bool (key a) (key b)) eqn:E; [reflexivity|].
  cbn [filter] in *. rewrite IH.
  destruct (Qeq_bool (key a) z0) eqn:Ea; [|reflexivity].
  destruct (Qeq_bool (key b) z0) eqn:Eb; [|reflexivity].
  exfalso. apply Qeq_bool_iff in Ea, Eb.
  assert (H : Qle_bool (key a) (key b) = true)
    by (apply Qle_bool_iff; rewrite Ea, Eb; apply Qle_refl).
  congruence.
Qed.

Lemma sort_by_stable (z0 : Q) (l : list A) :
  filter (fun x => Qeq_bool (key x) z0) (sort_by key l)
  = filter (fun x => Qeq_bool (key x) z0) l.
Proof.
  induction l as [|a l IH]; [reflexivity|].
  cbn [sort_by fold_right]. fold (sort_by key l).
  rewrite insert_sorted_stable. cbn [filter]. now rewrite IH.
Qed.

(** Sorting a sorted list changes nothing. *)
Lemma sort_by_sorted_id (l : list A) :
  StronglySorted (fun x y => key x <= key y) l -> sort_by key l = l.
Proof.
  induction 1 as [|a l Hs IH Ha]; [reflexivity|].
  cbn [sort_by fold_right]. fold (sort_by key l). rewrite IH.
  destruct l as [|b l]; [reflexivity|]. simpl.
  inversion Ha as [|? ? Hab _]; subst.
  apply Qle_bool_iff in Hab. now rewrite Hab.
Qed.

Lemma sort_by_idempotent (l : list A) :
  sort_by key (sort_by key l) = sort_by key l.
Proof. apply sort_by_sorted_id, sort_by_sorted. Qed.

End SortFacts.

(** X14.  When the arrangement is confirmed, every placement of the
    layout is drawn exactly once; the badges are drawn by ascending [z],
    and placements of equal [z] in the order of the layout.  Without
    confirmation nothing is drawn and the layout array is left as it
    is. *)
Theorem render_order (ctx : option MeasureCtx) (arr : list Placed.t) :
  fst (Component.render_badges ctx true arr)
  = map (Component.draw ctx) (snd (Component.render_badges ctx true arr)) /\
  Permutation (snd (Component.render_badges ctx true arr)) arr /\
  StronglySorted (fun p q => Placed.z p <= Placed.z q)
    (snd (Component.render_badges ctx true arr)) /\
  (forall z0,
     filter (fun p => Qeq_bool (Placed.z p) z0)
       (snd (Component.render_badges ctx true arr))
     = filter (fun p => Qeq_bool (Placed.z p) z0) arr) /\
  Component.render_badges ctx false arr = ([], arr).
Proof.
  unfold Component.render_badges; simpl.
  split; [reflexivity|]. split; [apply sort_by_perm|].
  split; [apply sort_by_sorted|]. split; [|reflexivity].
  intros z0. apply sort_by_stable.
Qed.

Lemma render_times_S (ctx : option MeasureCtx) (is_confirmed : bool)
    (n : nat) (arr : list Placed.t) :
  Component.render_times ctx is_confirmed (S n) arr
  = (fst (Component.render_badges ctx is_confirmed arr)
     :: fst (Component.render_times ctx is_confirmed n
               (snd (Component.render_badges ctx is_confirmed arr))),
     snd (Component.render_times ctx is_confirmed n
            (snd (Component.render_badges ctx is_confirmed arr)))).
Proof.
  cbn [Component.render_times].
  destruct (Component.render_badges ctx is_confirmed arr) as [d a'].
  cbn [fst snd].
  destruct (Component.render_times ctx is_confirmed n a'); reflexivity.
Qed.

Lemma render_badges_again (ctx : option MeasureCtx) (is_confirmed : bool)
    (arr : list Placed.t) :
  Component.render_badges ctx is_confirmed
    (snd (Component.render_badges ctx is_confirmed arr))
  = Component.render_badges ctx is_confirmed arr.
Proof.
  unfold Component.render_badges.
  destruct is_confirmed; cbn [snd]; [|reflexivity].
  now rewrite sort_by_idempotent.
Qed.

(** X15.  The sort of the render is in place, on the array that the
    component memoises; rendering again over that array draws the same
    badges in the same order, however often it is done. *)
Theorem render_again (ctx : option MeasureCtx) (is_confirmed : bool)
    (n : nat) (arr : list Placed.t) :
  fst (Component.render_times ctx is_confirmed n arr)
  = repeat (fst (Component.render_badges ctx is_confirmed arr)) n /\
  snd (Component.render_times ctx is_confirmed (S n) arr)
  = snd (Component.render_badges ctx is_confirmed arr).
Proof.
  split.
  - revert arr. induction n as [|n IH]; intros arr; [reflexivity|].
    rewrite render_times_S. cbn [fst repeat].
    now rewrite IH, render_badges_again.
  - revert arr. induction n as [|n IH]; intros arr.
    + rewrite render_times_S. reflexivity.
    + rewrite render_times_S. cbn [snd].
      now rewrite IH, render_badges_again.
Qed.

(** X16.  The slot overlay draws every slot of the table exactly once, by
    ascending [z], slots of equal [z] in the order in which
    [Object.entries] lists them. *)
Theorem overlay_order (slots : table Slot.t) :
  Permutation (Component.overlay slots) slots /\
  StronglySorted (fun a b => Slot.z (snd a) <= Slot.z (snd b))
    (Component.overlay slots) /\
  (forall z0,
     filter (fun e => Qeq_bool (Slot.z (snd e)) z0) (Component.overlay slots)
     = filter (fun e => Qeq_bool (Slot.z (snd e)) z0)
         (Object_entries slots)).
Proof.
  unfold Component.overlay. split; [|split].
  - rewrite sort_by_perm. apply Object_entries_perm.
  - apply (sort_by_sorted (fun e : string * Slot.t => Slot.z (snd e))).
  - intros z0.
    apply (sort_by_stable (fun e : string * Slot.t => Slot.z (snd e))).
Qed.

(** ** The state of the component *)

Lemma length_slice_0_3 {A : Type} (values : list A) :
  (List.length (slice 0 3 values) <= 3)%nat.
Proof. unfold slice. rewrite length_firstn. lia. Qed.

Lemma run_snoc (st : Component.State) (events : list Component.Event)
    (e : Component.Event) :
  Component.run st (events ++ [e])
  = Component.handle (Component.run st events) e.
Proof. unfold Component.run. now rewrite fold_left_app. Qed.

Lemma selects_cap_helper (events : list Component.Event) :
  (List.length
     (Component.selectedSAF (Component.run Component.initial events))
   <= 3)%nat /\
  (List.length
     (Component.selectedFOR (Component.run Component.initial events))
   <= 3)%nat.
Proof.
  induction events as [|e events IH] using rev_ind; [simpl; lia|].
  rewrite run_snoc. destruct IH as [Hs Hf].
  pose proof (@length_slice_0_3 string) as Hslice.
  destruct e; simpl; auto.
Qed.

(** X17.  Whatever the user does, the component never holds more than
    three SAF badges nor more than three foreign badges. *)
Theorem selects_capped (events : list Component.Event) :
  (List.length
     (Component.selectedSAF (Component.run Component.initial events))
   <= 3)%nat /\
  (List.length
     (Component.selectedFOR (Component.run Component.initial events))
   <= 3)%nat.
Proof. apply selects_cap_helper. Qed.

(** X18.  The arrangement is confirmed exactly when the last thing the
    user did was to confirm: any change of a select withdraws the
    confirmation, so that no badge is drawn, and confirming changes
    nothing of the selection. *)
Theorem change_withdraws_confirmation (st : Component.State)
    (events : list Component.Event) (e : Component.Event) :
  Component.confirmed (Component.run st (events ++ [e]))
  = match e with Component.ConfirmClicked => true | _ => false end /\
  (forall ctx arr,
     e <> Component.ConfirmClicked ->
     fst (Component.render_badges ctx
            (Component.confirmed (Component.run st (events ++ [e]))) arr)
     = []) /\
  Component.ids (Component.run st (events ++ [Component.ConfirmClicked]))
  = Component.ids (Component.run st events).
Proof.
  rewrite !run_snoc. split; [|split].
  - destruct e; reflexivity.
  - intros ctx arr He. destruct e; try reflexivity. congruence.
  - reflexivity.
Qed.

Section ComponentFacts.
Variable slots : table Slot.t.
Variable badges : table Badge.t.

Lemma routed_none (k : string) (l : list string) :
  (forall id, In id l -> routed slots badges k [id] = []) ->
  routed slots badges k l = [].
Proof.
  induction l as [|id l IH]; intros H; [reflexivity|].
  change (id :: l) with ([id] ++ l). rewrite routed_app.
  rewrite (H id) by now left. apply IH. intros id' Hin. apply H. now right.
Qed.

Lemma routed_filter_none (k : string) (f : string -> bool) (l : list string) :
  (forall id, In id l -> routed slots badges k [id] = []) ->
  routed slots badges k (filter f l) = [].
Proof.
  intros H. apply routed_none. intros id Hin.
  apply filter_In in Hin as [Hin _]. now apply H.
Qed.

Lemma length_routed_filter (k : string) (f : string -> bool)
    (l : list string) :
  (List.length (routed slots badges k (filter f l)) <= List.length l)%nat.
Proof.
  pose proof (length_routed_le slots badges k (filter f l)).
  pose proof (filter_length_le f l). lia.
Qed.

End ComponentFacts.

(** X19.  The empty identifier is never placed: the component drops empty
    strings from the selection, an unset rank among them, before the
    layout is computed. *)
Theorem empty_identifier_never_placed (slots : table Slot.t)
    (badges : table Badge.t) (st : Component.State) :
  ~ In "" (Component.ids st) /\
  Forall (fun p => Placed.id p <> "")
    (layout (Component.memo slots badges st)) /\
  (Component.selectedRank st = "" ->
   Component.ids st
   = filter (fun id => negb (String.eqb id ""))
       (Component.selectedSAF st ++ Component.selectedFOR st
        ++ Component.selectedMED st ++ Component.selectedPROF st)).
Proof.
  assert (Hno : ~ In "" (Component.ids st)).
  { unfold Component.ids. rewrite filter_In. intros [_ H]. discriminate H. }
  split; [exact Hno|]. split.
  - apply Forall_forall. intros p Hp Heq.
    apply layout_entry in Hp as (spec & box & Hin & _).
    rewrite Heq in Hin. contradiction.
  - intros Hrank. unfold Component.ids. rewrite Hrank. reflexivity.
Qed.

(** X20.  Through the component the three-item cap of a pyramid slot
    cannot be exceeded by the select that feeds it: as long as nothing
    chosen in the other selects is routed to [safBadges], no warning for
    [safBadges] arises, and likewise for [foreignBadges]. *)
Theorem pyramid_warning_unreachable (slots : table Slot.t)
    (badges : table Badge.t) (events : list Component.Event) :
  ((forall id,
      In id
        (Component.selectedRank (Component.run Component.initial events)
         :: Component.selectedFOR (Component.run Component.initial events)
         ++ Component.selectedMED (Component.run Component.initial events)
         ++ Component.selectedPROF (Component.run Component.initial events)) ->
      routed slots badges "safBadges" [id] = []) ->
   ~ In (pyramid_warning "safBadges")
        (warnings
           (Component.memo slots badges
              (Component.run Component.initial events)))) /\
  ((forall id,
      In id
        (Component.selectedRank (Component.run Component.initial events)
         :: Component.selectedSAF (Component.run Component.initial events)
         ++ Component.selectedMED (Component.run Component.initial events)
         ++ Component.selectedPROF (Component.run Component.initial events)) ->
      routed slots badges "foreignBadges" [id] = []) ->
   ~ In (pyramid_warning "foreignBadges")
        (warnings
           (Component.memo slots badges
              (Component.run Component.initial events)))).
Proof.
  destruct (selects_cap_helper events) as [Hs Hf].
  set (st := Component.run Component.initial events) in *.
  unfold Component.memo, Component.ids.
  change (Component.selectedRank st
          :: Component.selectedSAF st ++ Component.selectedFOR st
             ++ Component.selectedMED st ++ Component.selectedPROF st)
    with ([Component.selectedRank st]
          ++ Component.selectedSAF st ++ Component.selectedFOR st
             ++ Component.selectedMED st ++ Component.selectedPROF st).
  split; intros Hother Hw; apply pyramid_warning_In in Hw as [_ Hlen];
    rewrite !filter_app, !routed_app, !length_app in Hlen.
  - rewrite (routed_filter_none slots badges "safBadges" _
               [Component.selectedRank st]),
      (routed_filter_none slots badges "safBadges" _ (Component.selectedFOR st)),
      (routed_filter_none slots badges "safBadges" _ (Component.selectedMED st)),
      (routed_filter_none slots badges "safBadges" _ (Component.selectedPROF st))
      in Hlen.
    + pose proof (length_routed_filter slots badges "safBadges"
                    (fun id => negb (String.eqb id ""))
                    (Component.selectedSAF st)).
      simpl in Hlen. lia.
    + intros id Hin. apply Hother. right. apply in_or_app. right.
      apply in_or_app. now right.
    + intros id Hin. apply Hother. right. apply in_or_app. right.
      apply in_or_app. now left.
    + intros id Hin. apply Hother. right. apply in_or_app. now left.
    + intros id [<-|[]]. apply Hother. now left.
  - rewrite (routed_filter_none slots badges "foreignBadges" _
               [Component.selectedRank st]),
      (routed_filter_none slots badges "foreignBadges" _
         (Component.selectedSAF st)),
      (routed_filter_none slots badges "foreignBadges" _
         (Component.selectedMED st)),
      (routed_filter_none slots badges "foreignBadges" _
         (Component.selectedPROF st))
      in Hlen.
    + pose proof (length_routed_filter slots badges "foreignBadges"
                    (fun id => negb (String.eqb id ""))
                    (Component.selectedFOR st)).
      simpl in Hlen. lia.
    + intros id Hin. apply Hother. right. apply in_or_app. right.
      apply in_or_app. now right.
    + intros id Hin. apply Hother. right. apply in_or_app. right.
      apply in_or_app. now left.
    + intros id Hin. apply Hother. right. apply in_or_app. now left.
    + intros id [<-|[]]. apply Hother. now left.
Qed.

(** ** The options of the selects *)

Lemma NoDup_keys_filter {V : Type} (f : string * V -> bool) (l : table V) :
  NoDup (map fst l) -> NoDup (map fst (filter f l)).
Proof.
  induction l as [|a l IH]; simpl; intros Hnd; [constructor|].
  inversion Hnd as [|? ? Hni Hnd']; subst.
  destruct (f a); simpl; [|auto].
  constructor; [|auto]. intros Hin. apply Hni.
  apply in_map_iff in Hin as (e & <- & He). apply filter_In in He as [He _].
  now apply in_map.
Qed.

Lemma In_ids_of_category (badges : table Badge.t) (category id : string) :
  NoDup (map fst badges) ->
  (In id (ids_of_category badges category) <->
   exists b, get badges id = Some b /\ Badge.category b = category).
Proof.
  intros Hnd. unfold ids_of_category. rewrite in_map_iff. split.
  - intros ([id' b] & <- & Hin). apply filter_In in Hin as [Hin Hc].
    simpl in *. apply String.eqb_eq in Hc. exists b. split; [|exact Hc].
    apply In_get; [exact Hnd|].
    eapply Permutation_in; [apply Object_entries_perm | exact Hin].
  - intros (b & Hget & Hc). exists (id, b). split; [reflexivity|].
    apply filter_In. split.
    + eapply Permutation_in;
        [apply Permutation_sym, Object_entries_perm | now apply get_In].
    + simpl. now apply String.eqb_eq.
Qed.

Lemma ids_of_category_NoDup (badges : table Badge.t) (category : string) :
  NoDup (map fst badges) -> NoDup (ids_of_category badges category).
Proof.
  intros Hnd. unfold ids_of_category. apply NoDup_keys_filter.
  eapply Permutation_NoDup; [|exact Hnd].
  apply Permutation_map, Permutation_sym, Object_entries_perm.
Qed.

Lemma ids_of_category_disjoint (badges : table Badge.t) (c c' id : string) :
  NoDup (map fst badges) -> c <> c' ->
  In id (ids_of_category badges c) -> ~ In id (ids_of_category badges c').
Proof.
  intros Hnd Hne H H'.
  apply In_ids_of_category in H as (b & Hb & Hc); [|exact Hnd].
  apply In_ids_of_category in H' as (b' & Hb' & Hc'); [|exact Hnd].
  congruence.
Qed.

(** X21.  For a badge table without repeated identifiers, the options of
    a select are exactly the identifiers of the badges of its category,
    each once, and no identifier is offered by two selects. *)
Theorem select_options (badges : table Badge.t) :
  NoDup (map fst badges) ->
  (forall category id,
     In id (ids_of_category badges category) <->
     exists b, get badges id = Some b /\ Badge.category b = category) /\
  (forall category, NoDup (ids_of_category badges category)) /\
  (forall c c' id,
     c <> c' ->
     In id (ids_of_category badges c) ->
     ~ In id (ids_of_category badges c')).
Proof.
  intros Hnd. split; [|split].
  - intros category id. now apply In_ids_of_category.
  - intros category. now apply ids_of_category_NoDup.
  - intros c c' id. now apply ids_of_category_disjoint.
Qed.

Lemma select_options_witness :
  (forall category id,
     In id (ids_of_category Samples.badges category) <->
     exists b, get Samples.badges id = Some b
               /\ Badge.category b = category) /\
  (forall category, NoDup (ids_of_category Samples.badges category)) /\
  (forall c c' id,
     c <> c' ->
     In id (ids_of_category Samples.badges c) ->
     ~ In id (ids_of_category Samples.badges c')).
Proof.
  apply (select_options Samples.badges).
  repeat constructor; simpl; intuition discriminate.
Defined.

Lemma NoDup_app4 {A : Type} (l1 l2 l3 l4 : list A) :
  NoDup l1 -> NoDup l2 -> NoDup l3 -> NoDup l4 ->
  (forall a, In a l1 -> ~ In a l2 /\ ~ In a l3 /\ ~ In a l4) ->
  (forall a, In a l2 -> ~ In a l3 /\ ~ In a l4) ->
  (forall a, In a l3 -> ~ In a l4) ->
  NoDup (l1 ++ l2 ++ l3 ++ l4).
Proof.
  intros H1 H2 H3 H4 D1 D2 D3.
  apply NoDup_app; [exact H1 | |].
  - apply NoDup_app; [exact H2 | |].
    + apply NoDup_app; [exact H3 | exact H4 | exact D3].
    + intros a Ha Hin. apply in_app_or in Hin.
      destruct (D2 a Ha). tauto.
  - intros a Ha Hin. apply in_app_or in Hin as [Hin|Hin];
      [|apply in_app_or in Hin]; destruct (D1 a Ha) as (? & ? & ?); tauto.
Qed.

Lemma from_options_NoDup (badges : table Badge.t) (st : Component.State) :
  NoDup (map fst badges) ->
  Component.from_options badges st ->
  NoDup (Component.ids st).
Proof.
  intros Hnd (Hrank & (Hs & Is) & (Hf & If_) & (Hm & Im) & (Hp & Ip)).
  unfold SAF_IDS, FOR_IDS, MED_IDS, PROF_IDS, RANK_IDS in *.
  assert (Hd : forall c c' l l' a,
             c <> c' -> incl l (ids_of_category badges c) ->
             incl l' (ids_of_category badges c') -> In a l -> ~ In a l').
  { intros c c' l l' a Hne Hl Hl' Ha Ha'.
    exact (ids_of_category_disjoint badges c c' a Hnd Hne
             (Hl a Ha) (Hl' a Ha')). }
  assert (Hrest : NoDup (Component.selectedSAF st ++ Component.selectedFOR st
                         ++ Component.selectedMED st
                         ++ Component.selectedPROF st)).
  { apply NoDup_app4; auto.
    - intros a Ha. repeat split.
      + apply (Hd "saf" "foreign" _ _ a ltac:(discriminate) Is If_ Ha).
      + apply (Hd "saf" "medal" _ _ a ltac:(discriminate) Is Im Ha).
      + apply (Hd "saf" "proficiency" _ _ a ltac:(discriminate) Is Ip Ha).
    - intros a Ha. split.
      + apply (Hd "foreign" "medal" _ _ a ltac:(discriminate) If_ Im Ha).
      + apply (Hd "foreign" "proficiency" _ _ a ltac:(discriminate) If_ Ip Ha).
    - intros a Ha.
      apply (Hd "medal" "proficiency" _ _ a ltac:(discriminate) Im Ip Ha). }
  unfold Component.ids. destruct Hrank as [Hrank|Hrank].
  - rewrite Hrank. simpl. now apply NoDup_filter.
  - apply NoDup_filter. constructor; [|exact Hrest].
    intros Hin. apply in_app_or in Hin as [Hin|Hin];
      [|apply in_app_or in Hin as [Hin|Hin];
        [|apply in_app_or in Hin as [Hin|Hin]]].
    + exact (ids_of_category_disjoint badges "rank" "saf" _ Hnd
               ltac:(discriminate) Hrank (Is _ Hin)).
    + exact (ids_of_category_disjoint badges "rank" "foreign" _ Hnd
               ltac:(discriminate) Hrank (If_ _ Hin)).
    + exact (ids_of_category_disjoint badges "rank" "medal" _ Hnd
               ltac:(discriminate) Hrank (Im _ Hin)).
    + exact (ids_of_category_disjoint badges "rank" "proficiency" _ Hnd
               ltac:(discriminate) Hrank (Ip _ Hin)).
Qed.

(** X22.  When the selection is one the select elements can hold, the
    badges drawn carry pairwise different keys. *)
Theorem drawn_keys_distinct (slots : table Slot.t) (badges : table Badge.t)
    (ctx : option MeasureCtx) (st : Component.State) :
  NoDup (map fst badges) ->
  Component.from_options badges st ->
  NoDup (map Component.key
           (fst (Component.render_badges ctx true
                   (layout (Component.memo slots badges st))))).
Proof.
  intros Hnd Hopt. unfold Component.render_badges; cbn [fst].
  rewrite map_map. cbn [Component.key Component.draw].
  eapply Permutation_NoDup.
  - apply Permutation_map, Permutation_sym, sort_by_perm.
  - apply layout_ids_NoDup. now apply (from_options_NoDup badges).
Qed.

Lemma drawn_keys_distinct_witness :
  NoDup (map Component.key
           (fst (Component.render_badges (Some Samples.fixed_pitch) true
                   (layout
                      (Component.memo Samples.slots Samples.badges
                         (Component.mkState "sergeant" ["saf_a"; "saf_b"]
                            [] ["medal_y"; "medal_x"] [] true)))))).
Proof.
  apply (drawn_keys_distinct Samples.slots Samples.badges
           (Some Samples.fixed_pitch)
           (Component.mkState "sergeant" ["saf_a"; "saf_b"] []
              ["medal_y"; "medal_x"] [] true)).
  - repeat constructor; simpl; intuition discriminate.
  - unfold Component.from_options; simpl.
    repeat split; try (repeat constructor; simpl; intuition discriminate);
      intros a Ha; vm_compute in Ha |- *; intuition.
Defined.

(** ** Font sizes of the drawn badges *)

Lemma fitFontSize_range (ctx : option MeasureCtx) (label : string)
    (boxW boxH : Q) :
  (10 <= fitFontSize ctx label boxW boxH None
   <= Qfloor (Qmax 10 (fmul boxH (round53 0.7))))%Z.
Proof.
  unfold fitFontSize. cbn [opt_or].
  pose proof (height_bound_ge_10 boxH (round53 0.7)) as Hhb.
  destruct ctx as [measureText|].
  - pose proof (Qfloor_resp_le _ _
                  (min_fin_le (Qmax 10 (fmul boxH (round53 0.7)))
                     (xmul (div_pos (Qmax 10 (fsub boxW (fmul 8 2)))
                              (measured_width measureText
                                 ("600" ++ " 100px "
                                  ++ "Inter, Arial, sans-serif") label))
                           100))).
    lia.
  - split.
    + change 10%Z with (Qfloor 10). apply Qfloor_resp_le.
      apply Q.min_glb; [discriminate | apply Q.le_max_l].
    + apply Qfloor_resp_le, Q.le_min_r.
Qed.

Lemma font_size_cap (ctx : option MeasureCtx) (label : string)
    (boxW boxH top : Q) (cap : Z) :
  (10 <= cap)%Z -> boxH <= top ->
  fmul top (round53 0.7) < inject_Z (cap + 1) ->
  (fitFontSize ctx label boxW boxH None <= cap)%Z.
Proof.
  intros Hcap Htop Hh.
  destruct (fitFontSize_range ctx label boxW boxH) as [_ Hle].
  eapply Z.le_trans; [exact Hle|].
  apply Z.lt_succ_r. unfold Z.succ. rewrite Zlt_Qlt.
  eapply Qle_lt_trans; [apply Qfloor_le|].
  apply Q.max_lub_lt.
  - change 10 with (inject_Z 10). rewrite <- Zlt_Qlt. lia.
  - eapply Qle_lt_trans; [|exact Hh].
    apply fmul_mono_l; [apply default_ratio_nonneg | exact Htop].
Qed.

Section TileHeights.
Variable slots : table Slot.t.
Variable badges : table Badge.t.

Lemma tile_height (ids : list string) (p : Placed.t) :
  In p (layout (computeLayout slots badges ids)) ->
  (is_pyramid_slot (Placed.slot p) = true -> Placed.h p <= 60) /\
  (Placed.slot p = "medalsBelowRightPocket" -> Placed.h p <= 400) /\
  (Placed.slot p = "rightSleeveProficiency" -> Placed.h p == 36).
Proof.
  intros Hp.
  assert (Hin : In p (placements_of (Placed.slot p)
                        (layout (computeLayout slots badges ids)))).
  { apply filter_In. split; [exact Hp | apply String.eqb_refl]. }
  rewrite placements_of_layout in Hin.
  set (k := Placed.slot p) in *.
  destruct (routed slots badges k ids) as [|a l] eqn:E.
  { rewrite arrange_nil in Hin. destruct Hin. }
  destruct (routed_box slots badges ids k) as [box Hbox]; [congruence|].
  rewrite <- E in Hin. clear E a l.
  split; [|split].
  - intros Hk. rewrite (arrange_pyramid_eq _ _ box) in Hin by assumption.
    pose proof (Q.le_min_r (Slot.h box) 60) as Hh.
    unfold arrange_pyramid, mapi, slice in Hin.
    destruct (routed slots badges k ids) as [|a [|b [|c rest]]];
      simpl in Hin; intuition (subst; simpl; assumption).
  - intros Hk. rewrite Hk in *.
    rewrite (arrange_medals_eq _ box) in Hin by exact Hbox.
    apply in_mapi_from in Hin as (it & i & _ & _ & ->). simpl.
    apply Q.le_min_r.
  - intros Hk. rewrite Hk in *.
    rewrite (arrange_stack_eq _ box) in Hin by exact Hbox.
    apply in_mapi_from in Hin as (it & i & _ & _ & ->). simpl. reflexivity.
Qed.

End TileHeights.

(** X23.  The font size of every drawn badge is at least 10; it is at
    most 42 in a pyramid slot, at most 280 in the medal row and at most 25
    in the vertical stack, with or without a measuring context. *)
Theorem drawn_font_sizes (slots : table Slot.t) (badges : table Badge.t)
    (ids : list string) (ctx : option MeasureCtx) :
  Forall (fun p =>
            (10 <= Component.fontSize (Component.draw ctx p))%Z /\
            (is_pyramid_slot (Placed.slot p) = true ->
             (Component.fontSize (Component.draw ctx p) <= 42)%Z) /\
            (Placed.slot p = "medalsBelowRightPocket" ->
             (Component.fontSize (Component.draw ctx p) <= 280)%Z) /\
            (Placed.slot p = "rightSleeveProficiency" ->
             (Component.fontSize (Component.draw ctx p) <= 25)%Z))
    (layout (computeLayout slots badges ids)).
Proof.
  apply Forall_forall. intros p Hp. cbn [Component.fontSize Component.draw].
  destruct (tile_height slots badges ids p Hp) as (Hpy & Hmed & Hst).
  split; [apply fitFontSize_range|]. split; [|split]; intros Hk.
  - specialize (Hpy Hk). apply (font_size_cap _ _ _ _ 60); [lia|exact Hpy|].
    vm_compute. reflexivity.
  - specialize (Hmed Hk). apply (font_size_cap _ _ _ _ 400); [lia|exact Hmed|].
    vm_compute. reflexivity.
  - specialize (Hst Hk). apply (font_size_cap _ _ _ _ 36); [lia| |].
    + rewrite Hst. apply Qle_refl.
    + vm_compute. reflexivity.
Qed.
